(** * A generic array-backed binary heap (heap.c / heap.h)

    Shallow embedding of the C sources and proofs of the properties
    stated for them.  The embedding follows the C text function by
    function:

    - [size_t] values are integers in [Z] with the 64-bit wrap-around
      written out ([size_t z = z mod 2^64]);
    - a [void *] is an address ([ptr := Z], [NULL := 0]); the
      comparator is a function of two addresses returning an [int];
    - the backing buffer [h->data] is the list of the slots that were
      really allocated; every [data[i]] access is checked against that
      list, and an access outside of it (or through a null handle) is
      [Fault], the model's rendering of undefined behaviour;
    - [malloc], [calloc] and [realloc] are driven by an [allocator]
      that decides which requests succeed and what fresh memory holds;
    - loops run on a fuel counter fixed by the caller of the loop; the
      lemmas show that the fuel given is always enough. *)

From stdpp Require Import base list sorting.
From Stdlib Require Import ZArith Lia.
Local Open Scope Z_scope.

Ltac Zify.zify_post_hook ::= Z.to_euclidean_division_equations.

(** ** Outcomes of a call *)

Inductive outcome (X : Type) : Type :=
| Ret (x : X)     (* the call returns [x] *)
| Fault           (* access outside an allocation, or through NULL *)
| OutOfFuel.      (* the loop bound of the model was exhausted *)
Arguments Ret {X} x.
Arguments Fault {X}.
Arguments OutOfFuel {X}.

Definition bind {X Y : Type} (m : outcome X) (k : X -> outcome Y) : outcome Y :=
  match m with
  | Ret x => k x
  | Fault => Fault
  | OutOfFuel => OutOfFuel
  end.

Notation "'do' x <- m ; k" := (bind m (fun x => k))
  (at level 10, x name, m at level 100, k at level 200).
Notation "'do' ( x , y ) <- m ; k" := (bind m (fun p => let '(x, y) := p in k))
  (at level 10, x name, y name, m at level 100, k at level 200).

(** ** Machine integers and pointers (LP64) *)

Definition size_t (z : Z) : Z := z mod 2 ^ 64.
Definition PTRDIFF_MAX : Z := 2 ^ 63 - 1.
Definition sizeof_ptr : Z := 8.
Definition HEAP_DEFAULT_CAP : Z := 16.

Definition ptr : Type := Z.
Definition NULL : ptr := 0.

(** [typedef int ( *heap_cmp_fn)(const void *a, const void *b)] *)
Definition heap_cmp_fn : Type := ptr -> ptr -> Z.

(** ** The allocator *)

Record allocator : Type := mkAlloc {
  calloc_ok : bool;        (* does [calloc(1, sizeof(Heap))] succeed *)
  grant : Z -> bool;       (* does a buffer request of that many bytes succeed *)
  junk : nat -> ptr        (* indeterminate contents of a fresh slot *)
}.

Definition fresh (al : allocator) (from k : nat) : list ptr :=
  map (junk al) (seq from k).

(** No object is larger than [PTRDIFF_MAX] bytes. *)
Definition granted (al : allocator) (bytes : Z) : bool :=
  grant al bytes && (bytes <=? PTRDIFF_MAX).

Definition malloc (al : allocator) (bytes : Z) : option (list ptr) :=
  if granted al bytes
  then Some (fresh al 0 (Z.to_nat (bytes / sizeof_ptr)))
  else None.

(** On success the old contents are kept up to the smaller of the two
    sizes; on failure the old block is left as it was.  For a request
    of 0 bytes C leaves it to the implementation whether a NULL return
    has freed the old block (glibc frees it); the model reads it as
    kept, and the statements about [heap_reserve] and [heap_trim] stay
    clear of a refused request of 0 bytes. *)
Definition realloc (al : allocator) (old : list ptr) (bytes : Z) : option (list ptr) :=
  if granted al bytes
  then let k := Z.to_nat (bytes / sizeof_ptr) in
       Some (take k old ++ fresh al (length old) (k - length old))
  else None.

(** ** Checked memory accesses *)

Definition in_bounds (d : list ptr) (i : Z) : bool :=
  (0 <=? i) && (i <? Z.of_nat (length d)).

Definition load (d : list ptr) (i : Z) : outcome ptr :=
  if in_bounds d i
  then match d !! Z.to_nat i with Some v => Ret v | None => Fault end
  else Fault.

Definition store (d : list ptr) (i : Z) (v : ptr) : outcome (list ptr) :=
  if in_bounds d i then Ret (<[Z.to_nat i := v]> d) else Fault.

(** [memcpy(dst, src, bytes)] over arrays of pointers. *)
Definition memcpy (dst src : list ptr) (bytes : Z) : outcome (list ptr) :=
  let k := Z.to_nat (bytes / sizeof_ptr) in
  if (Nat.leb k (length dst) && Nat.leb k (length src))%bool
  then Ret (take k src ++ drop k dst)
  else Fault.

(** ** The heap object *)

Record Heap : Type := mkHeap {
  data : list ptr;       (* void **data *)
  size : Z;              (* size_t size *)
  capacity : Z;          (* size_t capacity *)
  cmp : heap_cmp_fn      (* heap_cmp_fn cmp *)
}.

(** A [Heap *]: [None] is the null pointer. *)
Definition handle : Type := option Heap.

Definition deref (hd : handle) : outcome Heap :=
  match hd with
  | Some h => Ret h
  | None => Fault
  end.

Definition set_data (h : Heap) (d : list ptr) : Heap :=
  mkHeap d (size h) (capacity h) (cmp h).
Definition set_size (h : Heap) (n : Z) : Heap :=
  mkHeap (data h) n (capacity h) (cmp h).
Definition set_capacity (h : Heap) (n : Z) : Heap :=
  mkHeap (data h) (size h) n (cmp h).

(** ** Index helpers *)

Module Ix.
Definition parent (i : Z) : Z := size_t (i - 1) / 2.
Definition left (i : Z) : Z := size_t (2 * i + 1).
Definition right (i : Z) : Z := size_t (2 * i + 2).
End Ix.

(** [swap(&data[a], &data[b])] *)
Definition swap (d : list ptr) (a b : Z) : outcome (list ptr) :=
  do tmp <- load d a;
  do vb <- load d b;
  do d1 <- store d a vb;
  store d1 b tmp.

(** ** Heapify helpers *)

Fixpoint sift_up_loop (fuel : nat) (h : Heap) (i : Z) : outcome Heap :=
  match fuel with
  | O => OutOfFuel
  | S fuel' =>
      if 0 <? i then
        let p := Ix.parent i in
        do x <- load (data h) i;
        do y <- load (data h) p;
        if cmp h x y <=? 0 then Ret h
        else
          do d <- swap (data h) i p;
          sift_up_loop fuel' (set_data h d) p
      else Ret h
  end.

Definition sift_up (h : Heap) (i : Z) : outcome Heap :=
  sift_up_loop (S (Z.to_nat i)) h i.

(** One test of [sift_down]: [if (c < h->size && cmp(data[c], data[largest]) > 0) largest = c]. *)
Definition pick (h : Heap) (c largest : Z) : outcome Z :=
  if c <? size h then
    do x <- load (data h) c;
    do y <- load (data h) largest;
    Ret (if cmp h x y >? 0 then c else largest)
  else Ret largest.

Fixpoint sift_down_loop (fuel : nat) (h : Heap) (i : Z) : outcome Heap :=
  match fuel with
  | O => OutOfFuel
  | S fuel' =>
      let l := Ix.left i in
      let r := Ix.right i in
      let largest := i in
      do largest <- pick h l largest;
      do largest <- pick h r largest;
      if largest =? i then Ret h
      else
        do d <- swap (data h) i largest;
        sift_down_loop fuel' (set_data h d) largest
  end.

Definition sift_down (h : Heap) (i : Z) : outcome Heap :=
  sift_down_loop (S (Z.to_nat (size h))) h i.

(** ** Public API *)

Definition heap_create (al : allocator) (cmp : option heap_cmp_fn) (capacity : Z) : handle :=
  match cmp with
  | None => None
  | Some c =>
      let capacity := if capacity =? 0 then HEAP_DEFAULT_CAP else capacity in
      if calloc_ok al then
        match malloc al (size_t (capacity * sizeof_ptr)) with
        | None => None
        | Some buf => Some (mkHeap buf 0 capacity c)
        end
      else None
  end.

(** [for (ssize_t i = (ssize_t)(n / 2) - 1; i >= 0; i--) sift_down(h, (size_t)i);] *)
Fixpoint build_loop (fuel : nat) (h : Heap) (i : Z) : outcome Heap :=
  match fuel with
  | O => OutOfFuel
  | S fuel' =>
      if 0 <=? i then
        do h' <- sift_down h (size_t i);
        build_loop fuel' h' (i - 1)
      else Ret h
  end.

Definition heap_build (al : allocator) (arr : list ptr) (n : Z)
    (cmp : option heap_cmp_fn) : outcome handle :=
  match cmp with
  | None => Ret None
  | Some c =>
      if calloc_ok al then
        match malloc al (size_t (n * sizeof_ptr)) with
        | None => Ret None
        | Some buf =>
            do d <- memcpy buf arr (size_t (n * sizeof_ptr));
            let h := mkHeap d n n c in
            do h' <- build_loop (S (Z.to_nat (n / 2))) h (n / 2 - 1);
            Ret (Some h')
        end
      else Ret None
  end.

Definition heap_destroy (hd : handle) : outcome unit :=
  match hd with
  | None => Ret tt
  | Some h => Ret tt
  end.

Definition heap_reserve (al : allocator) (hd : handle) (n : Z) : outcome (Z * handle) :=
  do h <- deref hd;
  if n <=? capacity h then Ret (0, hd)
  else
    match realloc al (data h) (size_t (n * sizeof_ptr)) with
    | None => Ret (-1, hd)
    | Some tmp => Ret (0, Some (set_capacity (set_data h tmp) n))
    end.

Definition heap_insert (al : allocator) (hd : handle) (item : ptr) : outcome (Z * handle) :=
  do h <- deref hd;
  do (rc, hd) <- (if size h =? capacity h
                  then heap_reserve al hd (size_t (capacity h * 2))
                  else Ret (0, hd));
  if rc <? 0 then Ret (-1, hd)
  else
    do h <- deref hd;
    do d <- store (data h) (size h) item;
    do h <- sift_up (set_data h d) (size h);
    Ret (0, Some (set_size h (size_t (size h + 1)))).

Definition heap_peek (hd : handle) : outcome ptr :=
  match hd with
  | Some h => if 0 <? size h then load (data h) 0 else Ret NULL
  | None => Ret NULL
  end.

Definition heap_extract (hd : handle) : outcome (ptr * handle) :=
  match hd with
  | None => Ret (NULL, hd)
  | Some h =>
      if size h =? 0 then Ret (NULL, hd)
      else
        do root <- load (data h) 0;
        do last <- load (data h) (size_t (size h - 1));
        do d <- store (data h) 0 last;
        let h := set_size (set_data h d) (size_t (size h - 1)) in
        do h <- (if 0 <? size h then sift_down h 0 else Ret h);
        Ret (root, Some h)
  end.

Definition heap_replace (hd : handle) (item : ptr) : outcome (ptr * handle) :=
  match hd with
  | None => Ret (NULL, hd)
  | Some h =>
      if size h =? 0 then Ret (NULL, hd)
      else
        do root <- load (data h) 0;
        do d <- store (data h) 0 item;
        do h <- sift_down (set_data h d) 0;
        Ret (root, Some h)
  end.

Definition heap_size (hd : handle) : Z :=
  match hd with
  | Some h => size h
  | None => 0
  end.

Definition heap_clear (hd : handle) : handle :=
  match hd with
  | Some h => Some (set_size h 0)
  | None => None
  end.

(** [for (size_t i = 1; i < h->size; i++)] with its early [return false]. *)
Fixpoint validate_loop (fuel : nat) (h : Heap) (i : Z) : outcome bool :=
  match fuel with
  | O => OutOfFuel
  | S fuel' =>
      if i <? size h then
        let p := Ix.parent i in
        do x <- load (data h) i;
        do y <- load (data h) p;
        if cmp h x y >? 0 then Ret false
        else validate_loop fuel' h (size_t (i + 1))
      else Ret true
  end.

Definition heap_validate (hd : handle) : outcome bool :=
  match hd with
  | None => Ret false
  | Some h => validate_loop (S (Z.to_nat (size h))) h 1
  end.

(** [for (size_t i = n; i-- > 0;) arr[i] = heap_extract(h);] *)
Fixpoint sort_loop (fuel : nat) (hd : handle) (arr : list ptr) (i : Z)
    : outcome (list ptr * handle) :=
  match fuel with
  | O => OutOfFuel
  | S fuel' =>
      if 0 <? i then
        let i := size_t (i - 1) in
        do (v, hd) <- heap_extract hd;
        do arr <- store arr i v;
        sort_loop fuel' hd arr i
      else Ret (arr, hd)
  end.

(** The result is the contents of the caller's array when the call
    returns; the C function itself returns [void]. *)
Definition heap_sort (al : allocator) (arr : list ptr) (n : Z)
    (cmp : option heap_cmp_fn) : outcome (list ptr) :=
  do hd <- heap_build al arr n cmp;
  match hd with
  | None => Ret arr
  | Some _ =>
      do (arr, hd) <- sort_loop (S (Z.to_nat n)) hd arr n;
      do _ <- heap_destroy hd;
      Ret arr
  end.

(** [while (heap_size(h)) ... heap_extract(h)]: extract until the heap
    is empty, collecting what was extracted, first extraction first. *)
Fixpoint drain_loop (fuel : nat) (hd : handle) : outcome (list ptr * handle) :=
  match fuel with
  | O => OutOfFuel
  | S fuel' =>
      if heap_size hd =? 0 then Ret ([], hd)
      else
        do (v, hd) <- heap_extract hd;
        do (rest, hd) <- drain_loop fuel' hd;
        Ret (v :: rest, hd)
  end.

Definition drain (hd : handle) : outcome (list ptr * handle) :=
  drain_loop (S (Z.to_nat (heap_size hd))) hd.

(** ** The rest of the public API *)

Definition heap_trim (al : allocator) (hd : handle) : outcome handle :=
  do h <- deref hd;
  if capacity h =? size h then Ret hd
  else
    match realloc al (data h) (size_t (size h * sizeof_ptr)) with
    | Some tmp => Ret (Some (set_capacity (set_data h tmp) (size h)))
    | None => Ret hd
    end.

Definition heap_clone (al : allocator) (hd : handle) : outcome handle :=
  match hd with
  | None => Ret None
  | Some h =>
      match heap_create al (Some (cmp h)) (capacity h) with
      | None => Ret None
      | Some c =>
          do d <- memcpy (data c) (data h) (size_t (size h * sizeof_ptr));
          Ret (Some (set_size (set_data c d) (size h)))
      end
  end.

(** [struct HeapIter { const Heap *heap; size_t index; }].  The
    iterator borrows the heap: [heap] is the heap object as the
    iterator finds it when it is used. *)
Record HeapIter : Type := mkIter {
  heap : handle;
  index : Z
}.

Definition heap_iter (hd : handle) : HeapIter := mkIter hd 0.

(** [it] is the [HeapIter *] ([None] is NULL) and [out] the cell that
    [void **out] points to ([None] is a null [out]).  The result is
    the returned flag with the iterator and the cell after the call. *)
Definition heap_iter_next (it : option HeapIter) (out : option ptr)
    : outcome (bool * option HeapIter * option ptr) :=
  match it with
  | None => Ret (false, it, out)
  | Some i =>
      match heap i with
      | None => Ret (false, it, out)
      | Some h =>
          if size h <=? index i then Ret (false, it, out)
          else
            do v <- load (data h) (index i);
            match out with
            | None => Fault
            | Some _ =>
                Ret (true, Some (mkIter (heap i) (size_t (index i + 1))), Some v)
            end
      end
  end.

(** ** The demo comparators *)

(** The demo stores [int]s in memory and hands their addresses to the
    heap.  [memory] gives the [int] found at an address. *)
Definition memory : Type := ptr -> Z.

Definition int32 (z : Z) : Z := (z + 2 ^ 31) mod 2 ^ 32 - 2 ^ 31.

(** [int_cmp] of the demo: [(x > y) - (x < y)]. *)
Definition int_cmp (m : memory) : heap_cmp_fn :=
  fun a b =>
    let x := m a in
    let y := m b in
    Z.b2z (x >? y) - Z.b2z (x <? y).

(** The max-heap comparator returning [a - b] on [int]s. *)
Definition sub_cmp (m : memory) : heap_cmp_fn :=
  fun a b => int32 (m a - m b).

(** [int vals[] = {5, 2, 9, 1, 6, 7, 3}] placed at address 4096,
    [arr[i] = &vals[i]]. *)
Definition vals : list Z := [5; 2; 9; 1; 6; 7; 3].
Definition vals_base : Z := 4096.
Definition demo_memory : memory :=
  fun a => default 0 (vals !! Z.to_nat ((a - vals_base) / 4)).
Definition demo_arr : list ptr :=
  map (fun i => vals_base + 4 * Z.of_nat i) (seq 0 7).

Definition always : allocator := mkAlloc true (fun _ => true) (fun _ => NULL).
Definition never : allocator := mkAlloc false (fun _ => false) (fun _ => NULL).

(** * Vocabulary of the statements *)

Definition get (d : list ptr) (i : Z) : ptr := default NULL (d !! Z.to_nat i).

Definition swapl (d : list ptr) (a b : Z) : list ptr :=
  <[Z.to_nat b := get d a]> (<[Z.to_nat a := get d b]> d).

Definition len (d : list ptr) : Z := Z.of_nat (length d).

(** [cmp a b > 0] reads "a outranks b".  The contract asks that
    outranking is a strict weak order, in the form: never both ways
    round, and not outranking is transitive. *)
Record cmp_contract (c : heap_cmp_fn) : Prop := {
  cmp_asym : forall a b, c a b > 0 -> c b a <= 0;
  cmp_trans : forall a b k, c a b <= 0 -> c b k <= 0 -> c a k <= 0
}.

(** The element at [j] does not outrank the element at its parent. *)
Definition ordered_edge (c : heap_cmp_fn) (d : list ptr) (j : Z) : Prop :=
  c (get d j) (get d (Ix.parent j)) <= 0.

(** The heap property on the first [n] slots. *)
Definition heap_ordered (c : heap_cmp_fn) (d : list ptr) (n : Z) : Prop :=
  forall j, 1 <= j < n -> ordered_edge c d j.

(** The heap property on the edges whose parent is at [k] or later. *)
Definition heap_above (c : heap_cmp_fn) (d : list ptr) (n k : Z) : Prop :=
  forall j, 1 <= j < n -> k <= Ix.parent j -> ordered_edge c d j.

(** While [sift_down] stands at [i]: the edges below [i] are not
    known to be ordered, but the children of [i] respect the parent of [i]. *)
Definition down_hole (c : heap_cmp_fn) (d : list ptr) (n k i : Z) : Prop :=
  (forall j, 1 <= j < n -> k <= Ix.parent j -> Ix.parent j <> i -> ordered_edge c d j) /\
  (forall j, 1 <= j < n -> Ix.parent j = i -> 1 <= i -> k <= Ix.parent i ->
             c (get d j) (get d (Ix.parent i)) <= 0).

(** While [sift_up] stands at [i]: the edge above [i] is not known to
    be ordered, but the children of [i] respect the parent of [i]. *)
Definition up_hole (c : heap_cmp_fn) (d : list ptr) (n i : Z) : Prop :=
  (forall j, 1 <= j < n -> j <> i -> ordered_edge c d j) /\
  (forall j, 1 <= j < n -> Ix.parent j = i -> 1 <= i ->
             c (get d j) (get d (Ix.parent i)) <= 0).

(** The choice made by one test of [sift_down]. *)
Definition choose (c : heap_cmp_fn) (d : list ptr) (n cand cur : Z) : Z :=
  if cand <? n then (if c (get d cand) (get d cur) >? 0 then cand else cur) else cur.

(** The accesses of a heap stay inside its buffer, and the buffer is
    an object of at most [PTRDIFF_MAX] bytes. *)
Definition mem_ok (h : Heap) : Prop :=
  0 <= size h <= len (data h) /\ len (data h) * sizeof_ptr <= PTRDIFF_MAX.

(** The live elements, in array order. *)
Definition elements (h : Heap) : list ptr := take (Z.to_nat (size h)) (data h).

(** The heap property: no child outranks its parent. *)
Definition heap_property (h : Heap) : Prop :=
  heap_ordered (cmp h) (data h) (size h).

(** A heap whose [capacity] field is the number of slots it owns. *)
Definition wf (h : Heap) : Prop := mem_ok h /\ capacity h = len (data h).

(** The statements of [heap_insert] that follow the capacity check:
    [h->data[h->size] = item; sift_up(h, h->size); h->size++; return 0;] *)
Definition place (h : Heap) (item : ptr) : outcome (Z * handle) :=
  do d <- store (data h) (size h) item;
  do h <- sift_up (set_data h d) (size h);
  Ret (0, Some (set_size h (size_t (size h + 1)))).

(** What a heap and its successor by [insert] have in common. *)
Definition inserted (item : ptr) (h h' : Heap) : Prop :=
  mem_ok h' /\ size h' = size h + 1 /\ cmp h' = cmp h /\
  Permutation (elements h') (item :: elements h) /\
  (cmp_contract (cmp h) -> heap_property h -> heap_property h').

(** The indices visited by the heapify loop, in the order visited. *)
Fixpoint countdown (k : nat) : list Z :=
  match k with
  | O => []
  | S k' => Z.of_nat k' :: countdown k'
  end.

Fixpoint sift_down_each (idx : list Z) (h : Heap) : outcome Heap :=
  match idx with
  | [] => Ret h
  | i :: idx' => do h' <- sift_down h i; sift_down_each idx' h'
  end.

Inductive reachable (c : heap_cmp_fn) : Heap -> Prop :=
| reach_create al cap h :
    heap_create al (Some c) cap = Some h -> reachable c h
| reach_build al arr n h :
    0 <= n <= len arr -> len arr * sizeof_ptr <= PTRDIFF_MAX ->
    heap_build al arr n (Some c) = Ret (Some h) -> reachable c h
| reach_insert al h item rc h' :
    reachable c h -> heap_insert al (Some h) item = Ret (rc, Some h') -> reachable c h'
| reach_extract h v h' :
    reachable c h -> heap_extract (Some h) = Ret (v, Some h') -> reachable c h'
| reach_replace h item v h' :
    reachable c h -> heap_replace (Some h) item = Ret (v, Some h') -> reachable c h'.

Definition demo_cmp : heap_cmp_fn := int_cmp demo_memory.

(** The heap built from the demo array: 9 6 7 1 2 5 3. *)
Definition demo_heap : Heap :=
  mkHeap [4104; 4112; 4116; 4108; 4100; 4096; 4120] 7 7 demo_cmp.

(** The demo heap after [insert(&vals[1])], [extract()], [replace(&vals[0])]. *)
Definition demo_heap_later : Heap :=
  mkHeap [4112; 4096; 4096; 4100; 4100; 4108; 4120; 4108; 0; 0; 0; 0; 0; 0] 7 14 demo_cmp.

(** A full two-slot heap: 9 5. *)
Definition small_heap : Heap := mkHeap [4104; 4096] 2 2 demo_cmp.

(** A caller's loop [while (heap_iter_next(&it, &x)) ...], collecting
    the values left in [x]. *)
Fixpoint iter_collect (fuel : nat) (it : option HeapIter) (out : option ptr)
    : outcome (list ptr) :=
  match fuel with
  | O => OutOfFuel
  | S fuel' =>
      do r <- heap_iter_next it out;
      match r with
      | (true, it', Some v) => do rest <- iter_collect fuel' it' (Some v); Ret (v :: rest)
      | (true, _, None) => Fault
      | (false, _, _) => Ret []
      end
  end.

(** A caller's loop that inserts the items in order and stops at the
    first [heap_insert] that fails. *)
Fixpoint insert_all (al : allocator) (hd : handle) (items : list ptr)
    : outcome (Z * handle) :=
  match items with
  | [] => Ret (0, hd)
  | x :: rest =>
      do (rc, hd') <- heap_insert al hd x;
      if rc <? 0 then Ret (-1, hd') else insert_all al hd' rest
  end.

(** The capacity a heap gets from [heap_create]. *)
Definition created_capacity (cap : Z) : Z :=
  if cap =? 0 then HEAP_DEFAULT_CAP else cap.

(** A two-element heap with room for two more: 9 5. *)
Definition roomy_heap : Heap := mkHeap [4104; 4096; 0; 0] 2 4 demo_cmp.

(** An empty heap that still owns four slots. *)
Definition idle_heap : Heap := mkHeap [4104; 4096; 0; 0] 0 4 demo_cmp.

(** A heap array that breaks the heap property: 5 9. *)
Definition broken_heap : Heap := mkHeap [4096; 4104] 2 2 demo_cmp.

(** * Index arithmetic *)

Lemma size_t_small z : 0 <= z < 2 ^ 64 -> size_t z = z.
Proof. intros H. unfold size_t. apply Z.mod_small. exact H. Qed.

Lemma parent_eq i : 1 <= i < 2 ^ 64 -> Ix.parent i = (i - 1) / 2.
Proof. intros H. unfold Ix.parent. rewrite size_t_small; [reflexivity | lia]. Qed.

Lemma left_eq i : 0 <= i < 2 ^ 62 -> Ix.left i = 2 * i + 1.
Proof. intros H. unfold Ix.left. apply size_t_small. lia. Qed.

Lemma right_eq i : 0 <= i < 2 ^ 62 -> Ix.right i = 2 * i + 2.
Proof. intros H. unfold Ix.right. apply size_t_small. lia. Qed.

(** * Buffers as lists *)

Lemma in_bounds_true d i : 0 <= i < len d -> in_bounds d i = true.
Proof. unfold in_bounds, len. intros H. apply andb_true_intro. split; lia. Qed.

Lemma in_bounds_false d i : ~ (0 <= i < len d) -> in_bounds d i = false.
Proof.
  unfold in_bounds, len. intros H.
  destruct (0 <=? i) eqn:E1; destruct (i <? Z.of_nat (length d)) eqn:E2; simpl; try reflexivity.
  lia.
Qed.

Lemma load_ok d i : 0 <= i < len d -> load d i = Ret (get d i).
Proof.
  intros H. unfold load, get. rewrite in_bounds_true by exact H.
  destruct (d !! Z.to_nat i) eqn:E; [reflexivity |].
  apply lookup_ge_None in E. unfold len in H. lia.
Qed.

Lemma store_ok d i v : 0 <= i < len d -> store d i v = Ret (<[Z.to_nat i := v]> d).
Proof. intros H. unfold store. rewrite in_bounds_true by exact H. reflexivity. Qed.

Lemma store_fault d i v : ~ (0 <= i < len d) -> store d i v = Fault.
Proof. intros H. unfold store. rewrite in_bounds_false by exact H. reflexivity. Qed.

Lemma len_insert d i v : len (<[i := v]> d) = len d.
Proof. unfold len. rewrite length_insert. reflexivity. Qed.

Lemma len_swapl d a b : len (swapl d a b) = len d.
Proof. unfold swapl. rewrite !len_insert. reflexivity. Qed.

Lemma swap_ok d a b :
  0 <= a < len d -> 0 <= b < len d -> swap d a b = Ret (swapl d a b).
Proof.
  intros Ha Hb. unfold swap. rewrite (load_ok d a Ha), (load_ok d b Hb). simpl.
  rewrite (store_ok d a _ Ha). simpl.
  rewrite store_ok by (rewrite len_insert; exact Hb). reflexivity.
Qed.

Lemma get_insert d i v k :
  0 <= i < len d -> 0 <= k ->
  get (<[Z.to_nat i := v]> d) k = if k =? i then v else get d k.
Proof.
  intros Hi Hk. unfold get.
  destruct (k =? i) eqn:E.
  - apply Z.eqb_eq in E. subst k.
    rewrite list_lookup_insert_eq; [reflexivity | unfold len in Hi; lia].
  - apply Z.eqb_neq in E. rewrite list_lookup_insert_ne; [reflexivity | lia].
Qed.

Lemma get_swapl d a b k :
  0 <= a < len d -> 0 <= b < len d -> 0 <= k ->
  get (swapl d a b) k =
    if k =? b then get d a else if k =? a then get d b else get d k.
Proof.
  intros Ha Hb Hk. unfold swapl.
  rewrite get_insert by (rewrite ?len_insert; assumption).
  rewrite get_insert by assumption. reflexivity.
Qed.

Lemma get_take d n k : 0 <= k < n -> get (take (Z.to_nat n) d) k = get d k.
Proof.
  intros H. unfold get. rewrite lookup_take_lt by lia. reflexivity.
Qed.

Lemma insert_swap_perm (d : list ptr) i x y :
  d !! i = Some y -> Permutation (y :: <[i := x]> d) (x :: d).
Proof.
  revert i. induction d as [| z d IH]; intros [| i] H; simpl in *; try discriminate.
  - injection H as ->. apply perm_swap.
  - rewrite perm_swap. rewrite (IH i H). apply perm_swap.
Qed.

Lemma swap_lookup_perm (d : list ptr) i j x y :
  d !! i = Some x -> d !! j = Some y ->
  Permutation (<[j := x]> (<[i := y]> d)) d.
Proof.
  revert i j. induction d as [| z d IH]; intros [| i] [| j] Hi Hj; simpl in *;
    try discriminate.
  - injection Hi as ->. injection Hj as ->. reflexivity.
  - injection Hi as ->. apply insert_swap_perm. exact Hj.
  - injection Hj as ->. apply insert_swap_perm. exact Hi.
  - apply Permutation_cons; [reflexivity |]. apply (IH i j Hi Hj).
Qed.

Lemma swapl_perm d a b :
  0 <= a < len d -> 0 <= b < len d -> Permutation (swapl d a b) d.
Proof.
  intros Ha Hb. unfold swapl, get, len in *.
  destruct (d !! Z.to_nat a) as [x |] eqn:Ea;
    [| apply lookup_ge_None in Ea; lia].
  destruct (d !! Z.to_nat b) as [y |] eqn:Eb;
    [| apply lookup_ge_None in Eb; lia].
  simpl. apply (swap_lookup_perm d _ _ x y Ea Eb).
Qed.

Lemma take_swapl d a b n :
  0 <= a < n -> 0 <= b < n -> n <= len d ->
  take (Z.to_nat n) (swapl d a b) = swapl (take (Z.to_nat n) d) a b.
Proof.
  intros Ha Hb Hn. unfold swapl.
  rewrite !take_insert_lt by lia.
  rewrite !get_take by lia. reflexivity.
Qed.

Lemma len_take d n : 0 <= n <= len d -> len (take (Z.to_nat n) d) = n.
Proof. unfold len. intros H. rewrite length_take. lia. Qed.

Lemma take_swapl_perm d a b n :
  0 <= a < n -> 0 <= b < n -> n <= len d ->
  Permutation (take (Z.to_nat n) (swapl d a b)) (take (Z.to_nat n) d).
Proof.
  intros Ha Hb Hn. rewrite take_swapl by assumption.
  apply swapl_perm; rewrite len_take; lia.
Qed.

(** * The comparator contract and the heap order *)

Lemma cmp_refl c : cmp_contract c -> forall a, c a a <= 0.
Proof.
  intros Hc a. destruct (Z_le_gt_dec (c a a) 0) as [H | H]; [exact H |].
  apply (cmp_asym c Hc). exact H.
Qed.

Lemma heap_above_0 c d n : heap_above c d n 0 <-> heap_ordered c d n.
Proof.
  unfold heap_above, heap_ordered. split; intros H j Hj.
  - apply H; [exact Hj |]. unfold Ix.parent, size_t. lia.
  - intros _. apply H. exact Hj.
Qed.

Lemma heap_above_half c d n k : 0 <= n < 2 ^ 64 -> n / 2 <= k -> heap_above c d n k.
Proof.
  intros Hn Hk j Hj Hp. rewrite parent_eq in Hp by lia. lia.
Qed.

Section Order.
Variable c : heap_cmp_fn.
Hypothesis Hc : cmp_contract c.
Variable d : list ptr.
Variable n : Z.
Hypothesis Hn : 0 <= n <= len d.
Hypothesis Hlen : len d < 2 ^ 60.

Lemma choose_cases i :
  0 <= i < n ->
  let m := choose c d n (2 * i + 2) (choose c d n (2 * i + 1) i) in
  (m = i \/ (m = 2 * i + 1 /\ m < n) \/ (m = 2 * i + 2 /\ m < n)) /\
  c (get d i) (get d m) <= 0 /\
  (2 * i + 1 < n -> c (get d (2 * i + 1)) (get d m) <= 0) /\
  (2 * i + 2 < n -> c (get d (2 * i + 2)) (get d m) <= 0).
Proof.
  intros Hi. unfold choose.
  pose proof (cmp_refl c Hc) as Hrefl.
  pose proof (cmp_asym c Hc) as Hasym.
  pose proof (cmp_trans c Hc) as Htrans.
  destruct (2 * i + 1 <? n) eqn:El; destruct (2 * i + 2 <? n) eqn:Er;
    try (exfalso; lia).
  - destruct (c (get d (2 * i + 1)) (get d i) >? 0) eqn:E1.
    + destruct (c (get d (2 * i + 2)) (get d (2 * i + 1)) >? 0) eqn:E2.
      * assert (c (get d (2 * i + 1)) (get d (2 * i + 2)) <= 0) by (apply Hasym; lia).
        assert (c (get d i) (get d (2 * i + 1)) <= 0) by (apply Hasym; lia).
        repeat split; eauto; try lia.
      * assert (c (get d i) (get d (2 * i + 1)) <= 0) by (apply Hasym; lia).
        repeat split; eauto; try lia.
    + destruct (c (get d (2 * i + 2)) (get d i) >? 0) eqn:E2.
      * assert (c (get d i) (get d (2 * i + 2)) <= 0) by (apply Hasym; lia).
        assert (c (get d (2 * i + 1)) (get d i) <= 0) by lia.
        repeat split; eauto; try lia.
      * repeat split; eauto; try lia.
  - destruct (c (get d (2 * i + 1)) (get d i) >? 0) eqn:E1.
    + assert (c (get d i) (get d (2 * i + 1)) <= 0) by (apply Hasym; lia).
      repeat split; eauto; try lia.
    + repeat split; eauto; try lia.
  - repeat split; eauto; try lia.
Qed.

(** [sift_down] stops: the hole is closed. *)
Lemma down_hole_stop k i :
  0 <= i < n ->
  choose c d n (2 * i + 2) (choose c d n (2 * i + 1) i) = i ->
  down_hole c d n k i -> heap_above c d n k.
Proof.
  intros Hi Hm [H1 H2] j Hj Hk.
  destruct (Z.eq_dec (Ix.parent j) i) as [Hp | Hp]; [| apply H1; assumption].
  destruct (choose_cases i Hi) as (_ & _ & Hl & Hr). rewrite Hm in Hl, Hr.
  unfold ordered_edge. rewrite Hp.
  rewrite parent_eq in Hp by lia.
  assert (j = 2 * i + 1 \/ j = 2 * i + 2) as [-> | ->] by lia;
    [apply Hl | apply Hr]; lia.
Qed.

(** [sift_down] swaps with the chosen child: the hole moves there. *)
Lemma down_hole_step k i :
  0 <= i < n -> k <= i ->
  let m := choose c d n (2 * i + 2) (choose c d n (2 * i + 1) i) in
  m <> i ->
  down_hole c d n k i -> down_hole c (swapl d i m) n k m.
Proof.
  intros Hi Hki m Hm [H1 H2].
  destruct (choose_cases i Hi) as (Hcase & Hi_m & Hl & Hr). fold m in Hcase, Hi_m, Hl, Hr.
  assert (Hmb : i < m < n /\ Ix.parent m = i).
  { rewrite parent_eq by lia. lia. }
  destruct Hmb as [Hmb Hpm].
  split.
  - intros j Hj Hk Hp. unfold ordered_edge.
    assert (Hpj : 0 <= Ix.parent j < j) by (rewrite parent_eq by lia; lia).
    rewrite !get_swapl by lia.
    destruct (Z.eq_dec (Ix.parent j) i) as [Hpi | Hpi].
    + rewrite Hpi. rewrite (proj2 (Z.eqb_neq i m)) by lia. rewrite Z.eqb_refl.
      rewrite parent_eq in Hpi by lia.
      destruct (Z.eqb_spec j m) as [-> | Hjm]; [exact Hi_m |].
      rewrite (proj2 (Z.eqb_neq j i)) by lia.
      assert (j = 2 * i + 1 \/ j = 2 * i + 2) as [-> | ->] by lia;
        [apply Hl | apply Hr]; lia.
    + rewrite (proj2 (Z.eqb_neq (Ix.parent j) m)) by lia.
      rewrite (proj2 (Z.eqb_neq (Ix.parent j) i)) by lia.
      destruct (Z.eqb_spec j m) as [-> | Hjm]; [congruence |].
      destruct (Z.eqb_spec j i) as [-> | Hji].
      * apply H2; lia.
      * apply H1; assumption.
  - intros j Hj Hp Hm1 Hk. rewrite Hpm.
    assert (Hjm : m < j) by (rewrite parent_eq in Hp by lia; lia).
    rewrite !get_swapl by lia.
    rewrite (proj2 (Z.eqb_neq j m)) by lia.
    rewrite (proj2 (Z.eqb_neq j i)) by lia.
    rewrite (proj2 (Z.eqb_neq i m)) by lia. rewrite Z.eqb_refl.
    rewrite <- Hp. apply H1; lia.
Qed.

(** [sift_up] stops: the hole is closed. *)
Lemma up_hole_stop i :
  0 <= i < n ->
  (i = 0 \/ c (get d i) (get d (Ix.parent i)) <= 0) ->
  up_hole c d n i -> heap_ordered c d n.
Proof.
  intros Hi Hstop [H1 _] j Hj.
  destruct (Z.eq_dec j i) as [-> | Hji]; [| apply H1; assumption].
  destruct Hstop as [-> | Hle]; [lia | exact Hle].
Qed.

(** [sift_up] swaps with the parent: the hole moves there. *)
Lemma up_hole_step i :
  1 <= i < n ->
  c (get d i) (get d (Ix.parent i)) > 0 ->
  up_hole c d n i -> up_hole c (swapl d i (Ix.parent i)) n (Ix.parent i).
Proof.
  intros Hi Hgt [H1 H2].
  pose proof (cmp_asym c Hc _ _ Hgt) as Hpi.
  pose proof (cmp_trans c Hc) as Htrans.
  assert (Hp : 0 <= Ix.parent i < i) by (rewrite parent_eq by lia; lia).
  set (p := Ix.parent i) in *.
  split.
  - intros j Hj Hjp. unfold ordered_edge.
    assert (Hpj : 0 <= Ix.parent j < j) by (rewrite parent_eq by lia; lia).
    rewrite !get_swapl by lia.
    rewrite (proj2 (Z.eqb_neq j p)) by lia.
    destruct (Z.eqb_spec j i) as [-> | Hji].
    + fold p. rewrite Z.eqb_refl. exact Hpi.
    + destruct (Z.eqb_spec (Ix.parent j) p) as [Hs | Hs].
      * apply Htrans with (get d p); [| exact Hpi].
        rewrite <- Hs. apply H1; lia.
      * destruct (Z.eqb_spec (Ix.parent j) i) as [Hs' | Hs'].
        -- apply H2; lia.
        -- apply H1; lia.
  - intros j Hj Hjp Hp1.
    assert (Hpp : 0 <= Ix.parent p < p) by (rewrite parent_eq by lia; lia).
    assert (Hpj : 0 <= Ix.parent j < j) by (rewrite parent_eq by lia; lia).
    rewrite !get_swapl by lia.
    rewrite (proj2 (Z.eqb_neq j p)) by lia.
    rewrite (proj2 (Z.eqb_neq (Ix.parent p) p)) by lia.
    rewrite (proj2 (Z.eqb_neq (Ix.parent p) i)) by lia.
    assert (Hpo : c (get d p) (get d (Ix.parent p)) <= 0) by (apply H1; lia).
    destruct (Z.eqb_spec j i) as [-> | Hji]; [exact Hpo |].
    apply Htrans with (get d p); [| exact Hpo].
    rewrite <- Hjp. apply H1; lia.
Qed.

(** The root outranks or ties with every element of an ordered heap. *)
Lemma root_max :
  heap_ordered c d n -> forall j, 0 <= j < n -> c (get d j) (get d 0) <= 0.
Proof.
  intros Ho j Hj.
  assert (Hgen : forall k : nat, forall j, 0 <= j <= Z.of_nat k -> j < n ->
                   c (get d j) (get d 0) <= 0).
  { clear j Hj. induction k as [| k IH]; intros j Hj Hjn.
    - assert (j = 0) as -> by lia. apply cmp_refl. exact Hc.
    - destruct (Z.eq_dec j 0) as [-> | Hj0]; [apply cmp_refl; exact Hc |].
      assert (Hp : 0 <= Ix.parent j < j) by (rewrite parent_eq by lia; lia).
      apply (cmp_trans c Hc) with (get d (Ix.parent j)).
      + apply Ho. lia.
      + apply IH; lia. }
  apply (Hgen (Z.to_nat j)); lia.
Qed.
End Order.

Lemma choose_range c d n i :
  let m := choose c d n (2 * i + 2) (choose c d n (2 * i + 1) i) in
  m = i \/ (m = 2 * i + 1 /\ m < n) \/ (m = 2 * i + 2 /\ m < n).
Proof.
  unfold choose.
  destruct (2 * i + 1 <? n) eqn:El; destruct (2 * i + 2 <? n) eqn:Er;
    repeat match goal with |- context [if ?b then _ else _] => destruct b end;
    lia.
Qed.

Lemma down_hole_start c d n i :
  0 <= i < 2 ^ 64 -> heap_above c d n (i + 1) -> down_hole c d n i i.
Proof.
  intros Hi H. split.
  - intros j Hj Hk Hp. apply H; [exact Hj | lia].
  - intros j Hj Hp H1 Hk. rewrite parent_eq in Hk by lia. lia.
Qed.

Lemma down_hole_root c d d' n :
  0 <= n < 2 ^ 64 ->
  (forall j, 1 <= j -> get d' j = get d j) ->
  heap_ordered c d n -> down_hole c d' n 0 0.
Proof.
  intros Hn Hsame H. split.
  - intros j Hj _ Hp. unfold ordered_edge.
    assert (1 <= Ix.parent j).
    { enough (0 <= Ix.parent j) by lia. rewrite parent_eq by lia. lia. }
    rewrite !Hsame by lia. apply H. exact Hj.
  - intros j _ _ H1. lia.
Qed.

Lemma up_hole_last c d d' n :
  0 <= n < 2 ^ 64 ->
  (forall j, 0 <= j < n -> get d' j = get d j) ->
  heap_ordered c d n -> up_hole c d' (n + 1) n.
Proof.
  intros Hn Hsame H. split.
  - intros j Hj Hjn. unfold ordered_edge.
    assert (0 <= Ix.parent j < j) by (rewrite parent_eq by lia; lia).
    rewrite !Hsame by lia. apply H. lia.
  - intros j Hj Hp H1. rewrite parent_eq in Hp by lia. lia.
Qed.

(** * The loops return, and what they return *)

Lemma mem_ok_len h : mem_ok h -> len (data h) < 2 ^ 60.
Proof. unfold mem_ok, sizeof_ptr, PTRDIFF_MAX. lia. Qed.

Lemma set_data_id h : set_data h (data h) = h.
Proof. destruct h; reflexivity. Qed.

Lemma set_data_twice h d d' : set_data (set_data h d) d' = set_data h d'.
Proof. reflexivity. Qed.

Lemma pick_ok h cand cur :
  size h <= len (data h) -> 0 <= cand -> 0 <= cur < len (data h) ->
  pick h cand cur = Ret (choose (cmp h) (data h) (size h) cand cur).
Proof.
  intros Hs Hc Hl. unfold pick, choose.
  destruct (cand <? size h) eqn:E; [| reflexivity].
  rewrite !load_ok by lia. reflexivity.
Qed.

Lemma sift_down_loop_ok fuel : forall h i,
  mem_ok h -> 0 <= i < size h -> size h - i <= Z.of_nat fuel ->
  exists d',
    sift_down_loop fuel h i = Ret (set_data h d') /\
    len d' = len (data h) /\
    Permutation (take (Z.to_nat (size h)) d') (take (Z.to_nat (size h)) (data h)) /\
    (forall k, cmp_contract (cmp h) -> k <= i ->
       down_hole (cmp h) (data h) (size h) k i ->
       heap_above (cmp h) d' (size h) k).
Proof.
  induction fuel as [| fuel IH]; intros h i Hok Hi Hfuel; [lia |].
  pose proof (mem_ok_len h Hok) as Hlen. destruct Hok as [Hsz Hobj].
  pose proof (choose_range (cmp h) (data h) (size h) i) as Hrange.
  simpl. rewrite left_eq, right_eq by lia.
  rewrite pick_ok by lia. simpl.
  rewrite pick_ok by (unfold choose; repeat match goal with
                        |- context [if ?b then _ else _] => destruct b eqn:? end; lia).
  simpl.
  set (m := choose (cmp h) (data h) (size h) (2 * i + 2)
              (choose (cmp h) (data h) (size h) (2 * i + 1) i)) in *.
  simpl in Hrange.
  destruct (Z.eqb_spec m i) as [Hm | Hm].
  - exists (data h). rewrite set_data_id. repeat split; try reflexivity.
    intros k Hc Hk Hhole.
    apply (down_hole_stop (cmp h) Hc (data h) (size h)) with i; try assumption; lia.
  - rewrite swap_ok by lia. simpl.
    destruct (IH (set_data h (swapl (data h) i m)) m) as (d' & Hrun & Hl & Hperm & Hord).
    + split; simpl; rewrite len_swapl; assumption.
    + simpl. lia.
    + simpl. lia.
    + simpl in *. exists d'. rewrite Hrun. repeat split.
      * rewrite Hl. apply len_swapl.
      * rewrite Hperm. apply take_swapl_perm; lia.
      * intros k Hc Hk Hhole. apply Hord; [exact Hc | lia |].
        apply (down_hole_step (cmp h) Hc (data h) (size h)); try assumption; lia.
Qed.

Lemma sift_down_ok h i :
  mem_ok h -> 0 <= i < size h ->
  exists d',
    sift_down h i = Ret (set_data h d') /\
    len d' = len (data h) /\
    Permutation (take (Z.to_nat (size h)) d') (take (Z.to_nat (size h)) (data h)) /\
    (forall k, cmp_contract (cmp h) -> k <= i ->
       down_hole (cmp h) (data h) (size h) k i ->
       heap_above (cmp h) d' (size h) k).
Proof.
  intros Hok Hi. unfold sift_down. apply sift_down_loop_ok; [exact Hok | exact Hi | lia].
Qed.

Lemma sift_up_loop_ok fuel : forall h i n,
  0 <= i < n -> n <= len (data h) -> len (data h) < 2 ^ 60 -> i < Z.of_nat fuel ->
  exists d',
    sift_up_loop fuel h i = Ret (set_data h d') /\
    len d' = len (data h) /\
    Permutation (take (Z.to_nat n) d') (take (Z.to_nat n) (data h)) /\
    (cmp_contract (cmp h) -> up_hole (cmp h) (data h) n i -> heap_ordered (cmp h) d' n).
Proof.
  induction fuel as [| fuel IH]; intros h i n Hi Hn Hlen Hfuel; [lia |].
  simpl. destruct (Z.ltb_spec 0 i) as [Hpos | Hzero].
  - assert (Hp : 0 <= Ix.parent i < i) by (rewrite parent_eq by lia; lia).
    rewrite !load_ok by lia. simpl.
    destruct (Z.leb_spec (cmp h (get (data h) i) (get (data h) (Ix.parent i))) 0) as [Hle | Hgt].
    + exists (data h). rewrite set_data_id. repeat split; try reflexivity.
      intros Hc Hhole.
      apply (up_hole_stop (cmp h) (data h) n i); [lia | right; exact Hle | exact Hhole].
    + rewrite swap_ok by lia. simpl.
      destruct (IH (set_data h (swapl (data h) i (Ix.parent i))) (Ix.parent i) n)
        as (d' & Hrun & Hl & Hperm & Hord); simpl; rewrite ?len_swapl; try lia.
      simpl in *. exists d'. rewrite Hrun. repeat split.
      * rewrite Hl. apply len_swapl.
      * rewrite Hperm. apply take_swapl_perm; lia.
      * intros Hc Hhole. apply Hord; [exact Hc |].
        apply (up_hole_step (cmp h) Hc (data h) n); try assumption; lia.
  - exists (data h). rewrite set_data_id. repeat split; try reflexivity.
    intros Hc Hhole.
    apply (up_hole_stop (cmp h) (data h) n i); [lia | left; lia | exact Hhole].
Qed.

Lemma validate_loop_ok fuel : forall h i,
  mem_ok h -> 1 <= i -> Z.max 0 (size h - i) < Z.of_nat fuel ->
  exists b,
    validate_loop fuel h i = Ret b /\
    (b = true <-> forall j, i <= j < size h -> ordered_edge (cmp h) (data h) j).
Proof.
  induction fuel as [| fuel IH]; intros h i Hok Hi Hfuel.
  - lia.
  - pose proof (mem_ok_len h Hok) as Hlen. pose proof Hok as [Hsz Hobj].
    simpl. destruct (Z.ltb_spec i (size h)) as [Hlt | Hge].
    + assert (Hp : 0 <= Ix.parent i < i) by (rewrite parent_eq by lia; lia).
      rewrite !load_ok by lia. simpl.
      destruct (Z.gtb_spec (cmp h (get (data h) i) (get (data h) (Ix.parent i))) 0)
        as [Hgt | Hle].
      * exists false. split; [reflexivity |]. split; [discriminate |].
        intros H. specialize (H i). unfold ordered_edge in H. lia.
      * rewrite size_t_small by lia.
        destruct (IH h (i + 1) Hok) as (b & Hrun & Hb); [lia | lia |].
        exists b. split; [exact Hrun |]. rewrite Hb. split.
        -- intros H j Hj. destruct (Z.eq_dec j i) as [-> | Hne];
             [exact Hle | apply H; lia].
        -- intros H j Hj. apply H. lia.
    + exists true. split; [reflexivity |]. split; [| reflexivity].
      intros _ j Hj. lia.
Qed.

Lemma heap_validate_ok h :
  mem_ok h ->
  exists b, heap_validate (Some h) = Ret b /\
            (b = true <-> heap_ordered (cmp h) (data h) (size h)).
Proof.
  intros Hok. unfold heap_validate.
  destruct (validate_loop_ok (S (Z.to_nat (size h))) h 1 Hok) as (b & Hrun & Hb);
    [lia | destruct Hok; lia |].
  exists b. split; [exact Hrun | exact Hb].
Qed.

Lemma heap_validate_true h :
  mem_ok h -> heap_ordered (cmp h) (data h) (size h) ->
  heap_validate (Some h) = Ret true.
Proof.
  intros Hok Ho. destruct (heap_validate_ok h Hok) as (b & Hrun & Hb).
  rewrite Hrun. f_equal. apply Hb. exact Ho.
Qed.

Lemma build_loop_ok fuel : forall h i,
  mem_ok h -> -1 <= i < size h \/ i = -1 -> i + 1 < Z.of_nat fuel ->
  exists d',
    build_loop fuel h i = Ret (set_data h d') /\
    len d' = len (data h) /\
    Permutation (take (Z.to_nat (size h)) d') (take (Z.to_nat (size h)) (data h)) /\
    (cmp_contract (cmp h) -> heap_above (cmp h) (data h) (size h) (i + 1) ->
     heap_ordered (cmp h) d' (size h)).
Proof.
  induction fuel as [| fuel IH]; intros h i Hok Hi Hfuel; [lia |].
  pose proof (mem_ok_len h Hok) as Hlen. pose proof Hok as [Hsz Hobj].
  simpl. destruct (Z.leb_spec 0 i) as [Hpos | Hneg].
  - rewrite size_t_small by lia.
    destruct (sift_down_ok h i Hok) as (d1 & Hrun1 & Hl1 & Hperm1 & Hord1); [lia |].
    rewrite Hrun1. simpl.
    destruct (IH (set_data h d1) (i - 1)) as (d2 & Hrun2 & Hl2 & Hperm2 & Hord2).
    + split; simpl; rewrite Hl1; assumption.
    + simpl. lia.
    + lia.
    + simpl in *. exists d2. rewrite Hrun2. repeat split.
      * rewrite Hl2. exact Hl1.
      * rewrite Hperm2. exact Hperm1.
      * intros Hc Habove. apply Hord2; [exact Hc |].
        replace (i - 1 + 1) with i by lia.
        apply Hord1; [exact Hc | lia |].
        apply down_hole_start; [lia | exact Habove].
  - exists (data h). rewrite set_data_id. repeat split; try reflexivity.
    intros Hc Habove. apply heap_above_0.
    replace (i + 1) with 0 in Habove by lia. exact Habove.
Qed.

(** * The public operations *)

Arguments sift_down : simpl never.
Arguments sift_up : simpl never.
Arguments size_t : simpl never.

Lemma lookup_get d i : 0 <= i < len d -> d !! Z.to_nat i = Some (get d i).
Proof.
  intros H. unfold get. destruct (d !! Z.to_nat i) eqn:E; [reflexivity |].
  apply lookup_ge_None in E. unfold len in H. lia.
Qed.

Lemma in_elements_get h x :
  mem_ok h -> x ∈ elements h -> exists j, 0 <= j < size h /\ x = get (data h) j.
Proof.
  intros [Hsz _] Hin. unfold elements in Hin.
  apply list_elem_of_lookup in Hin as [k Hk].
  apply lookup_take_Some in Hk as [Hk Hlt].
  exists (Z.of_nat k). split; [lia |].
  unfold get. rewrite Nat2Z.id, Hk. reflexivity.
Qed.

Lemma elements_le_root h :
  cmp_contract (cmp h) -> mem_ok h -> heap_property h ->
  forall x, x ∈ elements h -> cmp h x (get (data h) 0) <= 0.
Proof.
  intros Hc Hok Ho x Hin.
  destruct (in_elements_get h x Hok Hin) as (j & Hj & ->).
  pose proof (mem_ok_len h Hok) as Hlen. destruct Hok as [Hsz _].
  apply (root_max (cmp h) Hc (data h) (size h)); try assumption; lia.
Qed.

(** ** Allocation *)

Lemma len_fresh al a k : len (fresh al a k) = Z.of_nat k.
Proof. unfold len, fresh. rewrite length_map, length_seq. reflexivity. Qed.

Lemma malloc_Some al bytes buf :
  0 <= bytes -> malloc al bytes = Some buf ->
  len buf = bytes / sizeof_ptr /\ bytes <= PTRDIFF_MAX.
Proof.
  unfold malloc, granted. intros Hb H.
  destruct (grant al bytes); simpl in H; [| discriminate].
  destruct (Z.leb_spec bytes PTRDIFF_MAX); [| discriminate].
  injection H as <-. rewrite len_fresh. unfold sizeof_ptr. split; lia.
Qed.

Lemma malloc_granted al bytes :
  granted al bytes = true ->
  malloc al bytes = Some (fresh al 0 (Z.to_nat (bytes / sizeof_ptr))).
Proof. unfold malloc. intros ->. reflexivity. Qed.

Lemma realloc_Some al old bytes tmp :
  0 <= bytes -> realloc al old bytes = Some tmp ->
  len tmp = bytes / sizeof_ptr /\ bytes <= PTRDIFF_MAX /\
  (forall k : nat, Z.of_nat k <= len old -> Z.of_nat k <= bytes / sizeof_ptr ->
                   take k tmp = take k old).
Proof.
  unfold realloc, granted. intros Hb H.
  destruct (grant al bytes); simpl in H; [| discriminate].
  destruct (Z.leb_spec bytes PTRDIFF_MAX); [| discriminate].
  injection H as <-. unfold sizeof_ptr, len in *. repeat split.
  - rewrite length_app, length_take. unfold fresh.
    rewrite length_map, length_seq. lia.
  - assumption.
  - intros k Hk1 Hk2. rewrite take_app_le by (rewrite length_take; lia).
    rewrite take_take. f_equal. lia.
Qed.

Lemma realloc_None al old bytes :
  granted al bytes = false -> realloc al old bytes = None.
Proof. unfold realloc. intros ->. reflexivity. Qed.

Lemma get_of_take d d' (k : nat) j :
  take k d' = take k d -> 0 <= j < Z.of_nat k -> get d' j = get d j.
Proof.
  intros Ht Hj. unfold get.
  rewrite <- (lookup_take_lt d' k) by lia.
  rewrite <- (lookup_take_lt d k) by lia.
  rewrite Ht. reflexivity.
Qed.

Lemma heap_ordered_ext c d d' n :
  0 <= n < 2 ^ 64 ->
  (forall j, 0 <= j < n -> get d' j = get d j) ->
  heap_ordered c d n -> heap_ordered c d' n.
Proof.
  intros Hn Hsame H j Hj. unfold ordered_edge.
  assert (0 <= Ix.parent j < j) by (rewrite parent_eq by lia; lia).
  rewrite !Hsame by lia. apply H. exact Hj.
Qed.

Lemma heap_ordered_shrink c d n n' :
  n' <= n -> heap_ordered c d n -> heap_ordered c d n'.
Proof. intros Hle H j Hj. apply H. lia. Qed.

(** ** extract and replace *)

Lemma extract_perm (d : list ptr) (k : nat) x y :
  d !! 0%nat = Some x -> d !! k = Some y ->
  Permutation (x :: take k (<[0%nat := y]> d)) (take (S k) d).
Proof.
  destruct d as [| z d]; [discriminate |]. simpl. intros [= ->] Hk.
  destruct k as [| k]; simpl in *.
  - reflexivity.
  - rewrite (take_S_r d k y Hk). apply perm_skip. apply Permutation_cons_append.
Qed.

Lemma replace_perm (d : list ptr) (k : nat) x y :
  d !! 0%nat = Some x ->
  Permutation (x :: take (S k) (<[0%nat := y]> d)) (y :: take (S k) d).
Proof.
  destruct d as [| z d]; [discriminate |]. simpl. intros [= ->]. apply perm_swap.
Qed.

Lemma heap_extract_ok h :
  mem_ok h -> 0 < size h ->
  exists h',
    heap_extract (Some h) = Ret (get (data h) 0, Some h') /\
    size h' = size h - 1 /\ capacity h' = capacity h /\ cmp h' = cmp h /\
    len (data h') = len (data h) /\
    Permutation (get (data h) 0 :: elements h') (elements h) /\
    (cmp_contract (cmp h) -> heap_property h -> heap_property h').
Proof.
  intros Hok Hpos. pose proof (mem_ok_len h Hok) as Hlen. pose proof Hok as [Hsz Hobj].
  unfold heap_extract.
  rewrite (proj2 (Z.eqb_neq (size h) 0)) by lia.
  rewrite size_t_small by lia.
  rewrite !load_ok by lia. cbn [bind].
  rewrite store_ok by lia. cbn [bind].
  set (d1 := <[Z.to_nat 0 := get (data h) (size h - 1)]> (data h)).
  set (h1 := set_size (set_data h d1) (size h - 1)).
  assert (Hok1 : mem_ok h1).
  { split; simpl; unfold d1; rewrite len_insert; [lia | exact Hobj]. }
  assert (Hperm1 : Permutation (get (data h) 0 :: elements h1) (elements h)).
  { unfold elements, h1, d1. simpl.
    replace (Z.to_nat (size h)) with (S (Z.to_nat (size h - 1))) by lia.
    apply extract_perm.
    - apply (lookup_get (data h) 0). lia.
    - apply lookup_get. lia. }
  assert (Hord1 : cmp_contract (cmp h) -> heap_property h ->
                  down_hole (cmp h1) (data h1) (size h1) 0 0).
  { intros Hc Ho. simpl. apply (down_hole_root _ (data h)); [lia | |].
    - intros j Hj. unfold d1. rewrite get_insert by lia.
      rewrite (proj2 (Z.eqb_neq j 0)) by lia. reflexivity.
    - apply heap_ordered_shrink with (size h); [lia | exact Ho]. }
  destruct (Z.ltb_spec 0 (size h1)) as [Hmore | Hnone].
  - destruct (sift_down_ok h1 0 Hok1) as (d' & Hrun & Hl & Hperm & Hord); [lia |].
    rewrite Hrun. cbn [bind]. exists (set_data h1 d'). simpl.
    repeat split; try reflexivity.
    + rewrite Hl. unfold d1. apply len_insert.
    + unfold elements in *. simpl in *. rewrite Hperm. exact Hperm1.
    + intros Hc Ho. apply heap_above_0. apply Hord; [exact Hc | lia |].
      apply Hord1; assumption.
  - cbn [bind]. exists h1. simpl. repeat split; try reflexivity.
    + unfold d1. apply len_insert.
    + exact Hperm1.
    + intros _ _ j Hj. simpl in *. lia.
Qed.

Lemma heap_replace_ok h item :
  mem_ok h -> 0 < size h ->
  exists h',
    heap_replace (Some h) item = Ret (get (data h) 0, Some h') /\
    size h' = size h /\ capacity h' = capacity h /\ cmp h' = cmp h /\
    len (data h') = len (data h) /\
    Permutation (get (data h) 0 :: elements h') (item :: elements h) /\
    (cmp_contract (cmp h) -> heap_property h -> heap_property h').
Proof.
  intros Hok Hpos. pose proof (mem_ok_len h Hok) as Hlen. pose proof Hok as [Hsz Hobj].
  unfold heap_replace.
  rewrite (proj2 (Z.eqb_neq (size h) 0)) by lia.
  rewrite !load_ok by lia. cbn [bind].
  rewrite store_ok by lia. cbn [bind].
  set (d1 := <[Z.to_nat 0 := item]> (data h)).
  set (h1 := set_data h d1).
  assert (Hok1 : mem_ok h1).
  { split; simpl; unfold d1; rewrite len_insert; [lia | exact Hobj]. }
  destruct (sift_down_ok h1 0 Hok1) as (d' & Hrun & Hl & Hperm & Hord); [simpl; lia |].
  rewrite Hrun. cbn [bind]. exists (set_data h1 d'). simpl.
  repeat split; try reflexivity.
  - rewrite Hl. unfold d1. apply len_insert.
  - unfold elements in *. simpl in *. rewrite Hperm. unfold d1.
    replace (Z.to_nat (size h)) with (S (Z.to_nat (size h - 1))) by lia.
    apply replace_perm. apply (lookup_get (data h) 0). lia.
  - intros Hc Ho. apply heap_above_0. apply Hord; [exact Hc | lia |].
    simpl. apply (down_hole_root _ (data h)); [lia | | exact Ho].
    intros j Hj. unfold d1. rewrite get_insert by lia.
    rewrite (proj2 (Z.eqb_neq j 0)) by lia. reflexivity.
Qed.

(** ** insert *)

Lemma heap_insert_unfold al h item :
  heap_insert al (Some h) item =
    do (rc, hd) <- (if size h =? capacity h
                    then heap_reserve al (Some h) (size_t (capacity h * 2))
                    else Ret (0, Some h));
    if rc <? 0 then Ret (-1, hd) else do h1 <- deref hd; place h1 item.
Proof. reflexivity. Qed.

Lemma take_insert_last (d : list ptr) (k : nat) x :
  (k < length d)%nat -> take (S k) (<[k := x]> d) = take k d ++ [x].
Proof.
  intros Hk. rewrite (take_S_r _ k x) by (apply list_lookup_insert_eq; exact Hk).
  rewrite take_insert_ge by lia. reflexivity.
Qed.

Lemma place_ok h item :
  mem_ok h -> size h < len (data h) ->
  exists h',
    place h item = Ret (0, Some h') /\
    size h' = size h + 1 /\ capacity h' = capacity h /\ cmp h' = cmp h /\
    len (data h') = len (data h) /\
    Permutation (elements h') (item :: elements h) /\
    (cmp_contract (cmp h) -> heap_property h -> heap_property h').
Proof.
  intros Hok Hroom. pose proof (mem_ok_len h Hok) as Hlen. pose proof Hok as [Hsz Hobj].
  unfold place. rewrite store_ok by lia. cbn [bind].
  set (d1 := <[Z.to_nat (size h) := item]> (data h)).
  assert (Hl1 : len d1 = len (data h)) by apply len_insert.
  destruct (sift_up_loop_ok (S (Z.to_nat (size h))) (set_data h d1) (size h) (size h + 1))
    as (d' & Hrun & Hl & Hperm & Hord);
    [lia | cbn [data set_data]; lia | cbn [data set_data]; lia | lia |].
  cbn [data size cmp set_data] in Hrun, Hl, Hperm, Hord.
  unfold sift_up. cbn [data size cmp set_data]. rewrite Hrun. cbn [bind data size cmp set_data].
  rewrite size_t_small by lia.
  exists (set_size (set_data h d') (size h + 1)). simpl.
  repeat split; try reflexivity.
  - rewrite Hl. unfold d1. apply len_insert.
  - unfold elements. simpl. rewrite Hperm. unfold d1.
    replace (Z.to_nat (size h + 1)) with (S (Z.to_nat (size h))) by lia.
    rewrite take_insert_last by (unfold len in Hroom; lia).
    symmetry. apply Permutation_cons_append.
  - intros Hc Ho. apply Hord; [exact Hc |].
    apply (up_hole_last _ (data h)); [lia | | exact Ho].
    intros j Hj. unfold d1. rewrite get_insert by lia.
    rewrite (proj2 (Z.eqb_neq j (size h))) by lia. reflexivity.
Qed.

Lemma place_fault h item : len (data h) <= size h -> place h item = Fault.
Proof. intros H. unfold place. rewrite store_fault by lia. reflexivity. Qed.

(** Doubling the capacity of a full heap. *)
Lemma heap_reserve_double al h :
  mem_ok h -> size h = capacity h ->
  heap_reserve al (Some h) (size_t (capacity h * 2)) =
    if capacity h =? 0 then Ret (0, Some h)
    else match realloc al (data h) (capacity h * 2 * sizeof_ptr) with
         | None => Ret (-1, Some h)
         | Some tmp => Ret (0, Some (set_capacity (set_data h tmp) (capacity h * 2)))
         end.
Proof.
  intros Hok Hfull. pose proof (mem_ok_len h Hok) as Hlen. destruct Hok as [Hsz _].
  unfold heap_reserve. cbn [deref bind].
  rewrite (size_t_small (capacity h * 2)) by lia.
  rewrite (size_t_small (capacity h * 2 * sizeof_ptr)) by (unfold sizeof_ptr; lia).
  destruct (Z.eqb_spec (capacity h) 0) as [H0 | H0].
  - rewrite (proj2 (Z.leb_le _ _)) by lia. reflexivity.
  - rewrite (proj2 (Z.leb_gt _ _)) by lia. reflexivity.
Qed.

(** The heap after a successful doubling. *)
Lemma grown_ok al h tmp :
  mem_ok h -> size h = capacity h ->
  realloc al (data h) (capacity h * 2 * sizeof_ptr) = Some tmp ->
  let h1 := set_capacity (set_data h tmp) (capacity h * 2) in
  wf h1 /\ elements h1 = elements h /\
  (heap_property h -> heap_property h1).
Proof.
  intros Hok Hfull Hre h1. pose proof (mem_ok_len h Hok) as Hlen. pose proof Hok as [Hsz _].
  apply realloc_Some in Hre as (Hl & Hmax & Hkeep); [| unfold sizeof_ptr; lia].
  assert (Hlt : len tmp = capacity h * 2) by (rewrite Hl; unfold sizeof_ptr; lia).
  assert (Ht : take (Z.to_nat (size h)) tmp = take (Z.to_nat (size h)) (data h)).
  { apply Hkeep; unfold sizeof_ptr; lia. }
  repeat split; simpl.
  - lia.
  - lia.
  - rewrite Hl. unfold sizeof_ptr in *. lia.
  - symmetry. exact Hlt.
  - exact Ht.
  - intros Ho. unfold heap_property, h1. simpl.
    apply heap_ordered_ext with (data h); [lia | | exact Ho].
    intros j Hj. apply (get_of_take _ _ (Z.to_nat (size h))); [exact Ht | lia].
Qed.

Lemma place_inserted h item :
  mem_ok h -> size h < len (data h) ->
  exists h', place h item = Ret (0, Some h') /\ inserted item h h' /\
             capacity h' = capacity h /\ len (data h') = len (data h).
Proof.
  intros Hok Hroom.
  destruct (place_ok h item Hok Hroom) as (h' & Hrun & Hs & Hcap & Hcmp & Hl & Hperm & Hord).
  exists h'. repeat split; try assumption.
  - destruct Hok. lia.
  - rewrite Hl. destruct Hok. lia.
  - rewrite Hl. apply Hok.
Qed.

(** Every return of [heap_insert] on a heap that keeps its accesses in
    bounds: either failure with the heap untouched, or the item is in. *)
Lemma heap_insert_returns al h item rc hd' :
  mem_ok h -> heap_insert al (Some h) item = Ret (rc, hd') ->
  (rc = -1 /\ hd' = Some h) \/
  (rc = 0 /\ exists h', hd' = Some h' /\ inserted item h h').
Proof.
  intros Hok Hrun. pose proof Hok as [Hsz Hobj].
  rewrite heap_insert_unfold in Hrun.
  assert (Hplace : forall h1, mem_ok h1 -> place h1 item = Ret (rc, hd') ->
            rc = 0 /\ exists h', hd' = Some h' /\ inserted item h1 h').
  { intros h1 Hok1 Hp. destruct (Z_lt_le_dec (size h1) (len (data h1))) as [Hroom | Hno].
    - destruct (place_inserted h1 item Hok1 Hroom) as (h' & Hp' & Hins & _).
      rewrite Hp' in Hp. injection Hp as <- <-. split; [reflexivity |].
      exists h'. split; [reflexivity | exact Hins].
    - rewrite place_fault in Hp by exact Hno. discriminate. }
  destruct (Z.eqb_spec (size h) (capacity h)) as [Hfull | Hnot].
  - rewrite heap_reserve_double in Hrun by assumption.
    destruct (capacity h =? 0).
    + cbn in Hrun. right. apply Hplace; assumption.
    + destruct (realloc al (data h) (capacity h * 2 * sizeof_ptr)) as [tmp |] eqn:Hre.
      * cbn in Hrun. right.
        destruct (grown_ok al h tmp Hok Hfull Hre) as ([Hok1 _] & Hel & Ho1).
        destruct (Hplace _ Hok1 Hrun) as (-> & h' & -> & Hok' & Hs' & Hc' & Hp' & Ho').
        split; [reflexivity |]. exists h'. split; [reflexivity |].
        split; [exact Hok' |]. split; [exact Hs' |]. split; [exact Hc' |].
        split; [rewrite Hp', Hel; reflexivity |].
        intros Hc Ho. apply Ho'; [exact Hc | apply Ho1; exact Ho].
      * cbn in Hrun. injection Hrun as <- <-. left. split; reflexivity.
  - cbn in Hrun. right. apply Hplace; assumption.
Qed.

(** With a positive capacity that matches the buffer, [heap_insert]
    always returns, and the heap stays that way. *)
Lemma heap_insert_total al h item :
  wf h -> 0 < capacity h ->
  exists rc h',
    heap_insert al (Some h) item = Ret (rc, Some h') /\
    (rc = 0 \/ rc = -1) /\ wf h' /\ 0 < capacity h'.
Proof.
  intros [Hok Hcap] Hpos. pose proof Hok as [Hsz Hobj].
  rewrite heap_insert_unfold.
  destruct (Z.eqb_spec (size h) (capacity h)) as [Hfull | Hnot].
  - rewrite (heap_reserve_double al h Hok Hfull).
    rewrite (proj2 (Z.eqb_neq _ _)) by lia.
    destruct (realloc al (data h) (capacity h * 2 * sizeof_ptr)) as [tmp |] eqn:Hre.
    + cbn. destruct (grown_ok al h tmp Hok Hfull Hre) as ([Hok1 Hcap1] & _ & _).
      destruct (place_inserted _ item Hok1) as (h' & Hrun & (Hok' & _) & Hc' & Hl');
        [simpl in *; lia |].
      exists 0, h'. simpl in *.
      split; [exact Hrun |]. split; [left; reflexivity |].
      split; [split; [exact Hok' | lia] | lia].
    + cbn. exists (-1), h. split; [reflexivity |]. split; [right; reflexivity |].
      split; [split; assumption | exact Hpos].
  - cbn. destruct (place_inserted h item Hok) as (h' & Hrun & (Hok' & _) & Hc' & Hl'); [lia |].
    exists 0, h'. split; [exact Hrun |]. split; [left; reflexivity |].
    split; [split; [exact Hok' | lia] | lia].
Qed.

(** ** create and build *)

Lemma size_t_nonneg z : 0 <= size_t z < 2 ^ 64.
Proof. unfold size_t. apply Z.mod_pos_bound. lia. Qed.

Lemma heap_create_returns al c cap h :
  heap_create al (Some c) cap = Some h ->
  mem_ok h /\ size h = 0 /\ cmp h = c /\ heap_property h.
Proof.
  unfold heap_create. intros H.
  destruct (calloc_ok al); [| discriminate].
  destruct (malloc _ _) as [buf |] eqn:Hm; [| discriminate].
  injection H as <-.
  apply malloc_Some in Hm as [Hl Hmax]; [| apply size_t_nonneg].
  pose proof (size_t_nonneg ((if cap =? 0 then HEAP_DEFAULT_CAP else cap) * sizeof_ptr)).
  unfold mem_ok, heap_property, heap_ordered. simpl. unfold sizeof_ptr in *.
  repeat split; lia.
Qed.

Lemma memcpy_exact buf arr n :
  len buf = n -> 0 <= n <= len arr ->
  memcpy buf arr (n * sizeof_ptr) = Ret (take (Z.to_nat n) arr).
Proof.
  intros Hb Hn. unfold memcpy, len, sizeof_ptr in *.
  replace (Z.to_nat (n * 8 / 8)) with (Z.to_nat n) by lia.
  rewrite (proj2 (Nat.leb_le _ _)) by lia.
  rewrite (proj2 (Nat.leb_le _ _)) by lia. simpl.
  rewrite drop_ge by lia. rewrite app_nil_r. reflexivity.
Qed.

Lemma build_loop_each k : forall h,
  Z.of_nat k < 2 ^ 64 ->
  build_loop (S k) h (Z.of_nat k - 1) = sift_down_each (countdown k) h.
Proof.
  induction k as [| k IH]; intros h Hk.
  - reflexivity.
  - cbn [build_loop countdown sift_down_each].
    rewrite (proj2 (Z.leb_le 0 (Z.of_nat (S k) - 1))) by lia.
    replace (Z.of_nat (S k) - 1) with (Z.of_nat k) by lia.
    rewrite size_t_small by lia.
    destruct (sift_down h (Z.of_nat k)) as [h' | |]; cbn [bind]; try reflexivity.
    apply IH. lia.
Qed.

Lemma heap_build_ok al arr n c :
  0 <= n <= len arr -> calloc_ok al = true -> granted al (n * sizeof_ptr) = true ->
  exists h,
    heap_build al arr n (Some c) = Ret (Some h) /\
    wf h /\ size h = n /\ capacity h = n /\ cmp h = c /\
    Permutation (data h) (take (Z.to_nat n) arr) /\
    sift_down_each (countdown (Z.to_nat (n / 2))) (mkHeap (take (Z.to_nat n) arr) n n c)
      = Ret h /\
    (cmp_contract c -> heap_property h).
Proof.
  intros Hn Hcal Hgr.
  assert (Hmax : n * sizeof_ptr <= PTRDIFF_MAX).
  { unfold granted in Hgr. apply andb_prop in Hgr as [_ Hgr]. lia. }
  unfold sizeof_ptr, PTRDIFF_MAX in Hmax.
  unfold heap_build. rewrite Hcal.
  rewrite (size_t_small (n * sizeof_ptr)) by (unfold sizeof_ptr; lia).
  rewrite (malloc_granted _ _ Hgr).
  rewrite memcpy_exact by (rewrite ?len_fresh; unfold sizeof_ptr; lia).
  cbn [bind].
  set (h0 := mkHeap (take (Z.to_nat n) arr) n n c).
  assert (Hl0 : len (data h0) = n) by (simpl; apply len_take; lia).
  assert (Hok0 : mem_ok h0).
  { split; rewrite Hl0; simpl; unfold sizeof_ptr, PTRDIFF_MAX; lia. }
  destruct (build_loop_ok (S (Z.to_nat (n / 2))) h0 (n / 2 - 1) Hok0)
    as (d' & Hrun & Hl & Hperm & Hord); [simpl; lia | lia |].
  pose proof (build_loop_each (Z.to_nat (n / 2)) h0) as Heach.
  replace (Z.of_nat (Z.to_nat (n / 2))) with (n / 2) in Heach by lia.
  rewrite Hrun in *. cbn [bind].
  exists (set_data h0 d'). split; [reflexivity |].
  assert (Hld : len d' = n) by lia.
  unfold h0 in *. cbn [size capacity cmp data set_data] in *.
  split; [| repeat split; try reflexivity].
  - unfold wf, mem_ok. cbn [size capacity cmp data set_data].
    unfold sizeof_ptr, PTRDIFF_MAX. lia.
  - rewrite <- (take_ge d' (Z.to_nat n)) by (unfold len in Hld; lia).
    rewrite Hperm. rewrite take_take. rewrite Nat.min_id. reflexivity.
  - symmetry. apply Heach. lia.
  - intros Hc. unfold heap_property. cbn [size capacity cmp data set_data].
    apply Hord; [exact Hc |].
    apply heap_above_half; lia.
Qed.

Lemma heap_build_returns al arr n c h :
  0 <= n <= len arr -> len arr * sizeof_ptr <= PTRDIFF_MAX ->
  heap_build al arr n (Some c) = Ret (Some h) ->
  mem_ok h /\ cmp h = c /\ (cmp_contract c -> heap_property h).
Proof.
  intros Hn Harr Hrun.
  destruct (calloc_ok al) eqn:Hcal;
    [| unfold heap_build in Hrun; rewrite Hcal in Hrun; discriminate].
  destruct (granted al (n * sizeof_ptr)) eqn:Hgr.
  - destruct (heap_build_ok al arr n c Hn Hcal Hgr)
      as (h' & Hrun' & [Hok _] & _ & _ & Hcmp & _ & _ & Hord).
    rewrite Hrun' in Hrun. injection Hrun as <-.
    split; [exact Hok | split; [exact Hcmp | exact Hord]].
  - unfold heap_build in Hrun. rewrite Hcal in Hrun.
    rewrite size_t_small in Hrun by (unfold sizeof_ptr, PTRDIFF_MAX in *; lia).
    unfold malloc in Hrun. rewrite Hgr in Hrun. discriminate.
Qed.

(** ** Heaps reachable through the public mutations *)

Lemma heap_extract_empty h : size h = 0 -> heap_extract (Some h) = Ret (NULL, Some h).
Proof. intros H. unfold heap_extract. rewrite H. reflexivity. Qed.

Lemma heap_replace_empty h item :
  size h = 0 -> heap_replace (Some h) item = Ret (NULL, Some h).
Proof. intros H. unfold heap_replace. rewrite H. reflexivity. Qed.

Lemma reachable_inv c h :
  cmp_contract c -> reachable c h -> mem_ok h /\ cmp h = c /\ heap_property h.
Proof.
  intros Hc Hr. induction Hr as
    [al cap h Hrun | al arr n h Hn Harr Hrun
    | al h item rc h' Hr IH Hrun | h v h' Hr IH Hrun | h item v h' Hr IH Hrun].
  - destruct (heap_create_returns al c cap h Hrun) as (Hok & _ & Hcmp & Ho).
    split; [exact Hok | split; [exact Hcmp | exact Ho]].
  - destruct (heap_build_returns al arr n c h Hn Harr Hrun) as (Hok & Hcmp & Ho).
    split; [exact Hok | split; [exact Hcmp | apply Ho; exact Hc]].
  - destruct IH as (Hok & Hcmp & Ho).
    destruct (heap_insert_returns al h item rc (Some h') Hok Hrun)
      as [[_ [= ->]] | (_ & h2 & [= <-] & Hok' & _ & Hcmp' & _ & Ho')].
    + split; [exact Hok | split; [exact Hcmp | exact Ho]].
    + split; [exact Hok' | split; [congruence |]].
      apply Ho'; [rewrite Hcmp; exact Hc | exact Ho].
  - destruct IH as (Hok & Hcmp & Ho). pose proof Hok as [Hsz Hobj].
    destruct (Z.eq_dec (size h) 0) as [H0 | H0].
    + rewrite heap_extract_empty in Hrun by exact H0. injection Hrun as <- <-.
      split; [exact Hok | split; [exact Hcmp | exact Ho]].
    + destruct (heap_extract_ok h Hok) as (h2 & Hrun' & Hs & _ & Hcmp' & Hl & _ & Ho'); [lia |].
      rewrite Hrun' in Hrun. injection Hrun as <- <-.
      split; [split; [lia | rewrite Hl; exact Hobj] | split; [congruence |]].
      apply Ho'; [rewrite Hcmp; exact Hc | exact Ho].
  - destruct IH as (Hok & Hcmp & Ho). pose proof Hok as [Hsz Hobj].
    destruct (Z.eq_dec (size h) 0) as [H0 | H0].
    + rewrite heap_replace_empty in Hrun by exact H0. injection Hrun as <- <-.
      split; [exact Hok | split; [exact Hcmp | exact Ho]].
    + destruct (heap_replace_ok h item Hok) as (h2 & Hrun' & Hs & _ & Hcmp' & Hl & _ & Ho'); [lia |].
      rewrite Hrun' in Hrun. injection Hrun as <- <-.
      split; [split; [lia | rewrite Hl; exact Hobj] | split; [congruence |]].
      apply Ho'; [rewrite Hcmp; exact Hc | exact Ho].
Qed.

(** ** Extracting until empty, and sorting *)

Lemma elements_empty h : size h = 0 -> elements h = [].
Proof. intros H. unfold elements. rewrite H. reflexivity. Qed.

Lemma drain_loop_ok fuel : forall h,
  mem_ok h -> size h < Z.of_nat fuel ->
  exists l h',
    drain_loop fuel (Some h) = Ret (l, Some h') /\
    size h' = 0 /\
    Permutation l (elements h) /\
    (cmp_contract (cmp h) -> heap_property h ->
     StronglySorted (fun a b => cmp h b a <= 0) l).
Proof.
  induction fuel as [| fuel IH]; intros h Hok Hfuel.
  - destruct Hok. lia.
  - pose proof Hok as [Hsz Hobj]. cbn [drain_loop heap_size].
    destruct (Z.eqb_spec (size h) 0) as [H0 | H0].
    + exists [], h. rewrite elements_empty by exact H0.
      repeat split; try assumption; try reflexivity. intros _ _. constructor.
    + destruct (heap_extract_ok h Hok) as (h1 & Hrun & Hs & _ & Hcmp & Hl & Hperm & Hord);
        [lia |].
      rewrite Hrun. cbn [bind].
      destruct (IH h1) as (rest & h' & Hrun' & Hs' & Hperm' & Hsorted).
      { split; [lia | rewrite Hl; exact Hobj]. }
      { lia. }
      rewrite Hrun'. cbn [bind].
      exists (get (data h) 0 :: rest), h'. repeat split; try assumption.
      * rewrite Hperm'. exact Hperm.
      * intros Hc Ho. constructor.
        -- rewrite <- Hcmp. apply Hsorted; [rewrite Hcmp; exact Hc | apply Hord; assumption].
        -- apply Forall_forall. intros b Hb.
           apply (elements_le_root h Hc Hok Ho).
           rewrite <- Hperm, <- Hperm'. right. exact Hb.
Qed.

Lemma drop_insert_here (d : list ptr) (k : nat) x :
  (k < length d)%nat -> drop k (<[k := x]> d) = x :: drop (S k) d.
Proof.
  intros Hk. rewrite (drop_S _ x k) by (apply list_lookup_insert_eq; exact Hk).
  rewrite drop_insert_lt by lia. reflexivity.
Qed.

Lemma sort_loop_ok fuel : forall h arr,
  mem_ok h -> size h <= len arr -> size h < Z.of_nat fuel ->
  exists l h',
    drain_loop fuel (Some h) = Ret (l, Some h') /\
    sort_loop fuel (Some h) arr (size h)
      = Ret (rev l ++ drop (Z.to_nat (size h)) arr, Some h').
Proof.
  induction fuel as [| fuel IH]; intros h arr Hok Harr Hfuel.
  - destruct Hok. lia.
  - pose proof (mem_ok_len h Hok) as Hlen. pose proof Hok as [Hsz Hobj].
    cbn [drain_loop sort_loop heap_size].
    destruct (Z.eqb_spec (size h) 0) as [H0 | H0].
    + exists [], h. rewrite H0. split; reflexivity.
    + rewrite (proj2 (Z.ltb_lt 0 (size h))) by lia.
      rewrite size_t_small by lia.
      destruct (heap_extract_ok h Hok) as (h1 & Hrun & Hs & _ & _ & Hl & _ & _); [lia |].
      rewrite Hrun. cbn [bind].
      rewrite store_ok by lia. cbn [bind].
      set (arr1 := <[Z.to_nat (size h - 1) := get (data h) 0]> arr).
      destruct (IH h1 arr1) as (l1 & h' & Hdrain & Hsort).
      { split; [lia | rewrite Hl; exact Hobj]. }
      { unfold arr1. rewrite len_insert. lia. }
      { lia. }
      rewrite Hdrain. cbn [bind]. rewrite <- Hs, Hsort.
      exists (get (data h) 0 :: l1), h'. split; [reflexivity |].
      f_equal. f_equal. rewrite Hs. unfold arr1.
      rewrite drop_insert_here by (unfold len in Harr; lia).
      replace (S (Z.to_nat (size h - 1))) with (Z.to_nat (size h)) by lia.
      simpl. rewrite <- app_assoc. reflexivity.
Qed.

Lemma strongly_sorted_rev (R : ptr -> ptr -> Prop) (l : list ptr) :
  StronglySorted (fun a b => R b a) l -> StronglySorted R (rev l).
Proof.
  induction 1 as [| x l Hs IH Hall]; simpl.
  - constructor.
  - apply StronglySorted_app_2.
    + intros x1 x2 H1 H2. apply list_elem_of_singleton in H2 as ->.
      rewrite Forall_forall in Hall. apply Hall.
      apply list_elem_of_In. apply in_rev. apply list_elem_of_In. exact H1.
    + exact IH.
    + repeat constructor.
Qed.

Lemma heap_sort_alloc_fails al arr n cmp :
  heap_build al arr n cmp = Ret None -> heap_sort al arr n cmp = Ret arr.
Proof. intros H. unfold heap_sort. rewrite H. reflexivity. Qed.

Lemma heap_sort_ok al arr n c :
  n = len arr -> calloc_ok al = true -> granted al (n * sizeof_ptr) = true ->
  exists out,
    heap_sort al arr n (Some c) = Ret out /\
    Permutation out arr /\
    (cmp_contract c -> StronglySorted (fun a b => c a b <= 0) out).
Proof.
  intros Hn Hcal Hgr.
  assert (Hn' : 0 <= n <= len arr) by (unfold len in *; lia).
  destruct (heap_build_ok al arr n c Hn' Hcal Hgr)
    as (h & Hrun & [Hok Hcap] & Hs & Hcapn & Hcmp & Hperm & _ & Hord).
  unfold heap_sort. rewrite Hrun. cbn [bind].
  destruct (sort_loop_ok (S (Z.to_nat n)) h arr Hok) as (l & h' & Hdrain & Hsort); [lia | lia |].
  destruct (drain_loop_ok (S (Z.to_nat n)) h Hok) as (l' & h'' & Hdrain' & _ & Hpl & Hsorted);
    [lia |].
  rewrite Hdrain in Hdrain'. injection Hdrain' as <- <-.
  rewrite Hs in Hsort. rewrite Hsort. cbn [bind heap_destroy].
  rewrite drop_ge by (unfold len in Hn; lia). rewrite app_nil_r.
  exists (rev l). split; [reflexivity |]. split.
  - rewrite <- Permutation_rev, Hpl. unfold elements.
    rewrite take_ge by (unfold len in *; lia).
    rewrite Hperm. rewrite take_ge by (unfold len in Hn; lia). reflexivity.
  - intros Hc. apply strongly_sorted_rev. rewrite <- Hcmp.
    apply Hsorted; [rewrite Hcmp; exact Hc | apply Hord; exact Hc].
Qed.

(** * The demo comparator and demo heaps *)

Lemma int_cmp_contract m : cmp_contract (int_cmp m).
Proof.
  split; unfold int_cmp.
  - intros a b.
    destruct (Z.gtb_spec (m a) (m b)); destruct (Z.ltb_spec (m a) (m b));
      destruct (Z.gtb_spec (m b) (m a)); destruct (Z.ltb_spec (m b) (m a));
      simpl; lia.
  - intros a b k.
    destruct (Z.gtb_spec (m a) (m b)); destruct (Z.ltb_spec (m a) (m b));
      destruct (Z.gtb_spec (m b) (m k)); destruct (Z.ltb_spec (m b) (m k));
      destruct (Z.gtb_spec (m a) (m k)); destruct (Z.ltb_spec (m a) (m k));
      simpl; lia.
Qed.

Lemma heap_validate_sound h :
  mem_ok h -> heap_validate (Some h) = Ret true -> heap_property h.
Proof.
  intros Hok Hv. destruct (heap_validate_ok h Hok) as (b & Hrun & Hb).
  rewrite Hrun in Hv. injection Hv as ->. apply Hb. reflexivity.
Qed.

Lemma demo_heap_wf : wf demo_heap.
Proof. unfold wf, mem_ok, len, sizeof_ptr, PTRDIFF_MAX. simpl. lia. Qed.

Lemma demo_heap_property : heap_property demo_heap.
Proof. apply heap_validate_sound; [apply demo_heap_wf | vm_compute; reflexivity]. Qed.

Lemma small_heap_wf : wf small_heap.
Proof. unfold wf, mem_ok, len, sizeof_ptr, PTRDIFF_MAX. simpl. lia. Qed.

Lemma demo_heap_reachable : reachable demo_cmp demo_heap.
Proof.
  apply (reach_build demo_cmp always demo_arr 7).
  - unfold len. simpl. lia.
  - unfold len, sizeof_ptr, PTRDIFF_MAX. simpl. lia.
  - reflexivity.
Qed.

Lemma demo_heap_later_reachable : reachable demo_cmp demo_heap_later.
Proof.
  eapply (reach_replace demo_cmp _ 4096).
  - eapply reach_extract.
    + eapply (reach_insert demo_cmp always _ 4100).
      * exact demo_heap_reachable.
      * reflexivity.
    + reflexivity.
  - reflexivity.
Qed.

(** * The properties of the specification *)

(** C1: on every heap reachable from a created or built heap by
    insert, extract, replace and build, no child outranks its parent
    ([cmp(data[i], data[parent(i)]) <= 0] for [1 <= i < size]) and
    [heap_validate] returns true, for a comparator that honours its
    contract. *)
Theorem heap_property_invariant (c : heap_cmp_fn) (h : Heap) :
  cmp_contract c -> reachable c h ->
  cmp h = c /\
  (forall i, 1 <= i < size h ->
     c (get (data h) i) (get (data h) (Ix.parent i)) <= 0) /\
  heap_validate (Some h) = Ret true.
Proof.
  intros Hc Hr. destruct (reachable_inv c h Hc Hr) as (Hok & Hcmp & Ho).
  split; [exact Hcmp |]. split.
  - intros i Hi. rewrite <- Hcmp. apply Ho. exact Hi.
  - apply heap_validate_true; assumption.
Qed.

Lemma heap_property_invariant_witness :
  cmp_contract demo_cmp /\ reachable demo_cmp demo_heap_later /\
  (cmp demo_heap_later = demo_cmp /\
   (forall i, 1 <= i < size demo_heap_later ->
      demo_cmp (get (data demo_heap_later) i)
               (get (data demo_heap_later) (Ix.parent i)) <= 0) /\
   heap_validate (Some demo_heap_later) = Ret true).
Proof.
  split; [apply int_cmp_contract |].
  split; [apply demo_heap_later_reachable |].
  apply (heap_property_invariant demo_cmp demo_heap_later).
  - apply int_cmp_contract.
  - apply demo_heap_later_reachable.
Defined.

(** C2: extracting from a heap that satisfies the heap property until
    it is empty returns every element once, each one not outranked by
    any later one; with the comparator [a - b], building from
    [5,2,9,1,6,7,3] and extracting until empty gives 9,7,6,5,3,2,1. *)
Theorem extract_until_empty_ordered :
  (forall h, cmp_contract (cmp h) -> mem_ok h -> heap_property h ->
     exists l h',
       drain (Some h) = Ret (l, Some h') /\ heap_size (Some h') = 0 /\
       Permutation l (elements h) /\
       StronglySorted (fun a b => cmp h b a <= 0) l) /\
  (do hd <- heap_build always demo_arr 7 (Some (sub_cmp demo_memory));
   do (l, _) <- drain hd;
   Ret (map demo_memory l)) = Ret [9; 7; 6; 5; 3; 2; 1].
Proof.
  split.
  - intros h Hc Hok Ho.
    destruct (drain_loop_ok (S (Z.to_nat (size h))) h Hok) as (l & h' & Hrun & Hs & Hp & Hsorted);
      [lia |].
    exists l, h'. unfold drain. cbn [heap_size].
    repeat split; try assumption. apply Hsorted; assumption.
  - vm_compute. reflexivity.
Qed.

Lemma extract_until_empty_ordered_witness :
  exists l h',
    drain (Some demo_heap) = Ret (l, Some h') /\ heap_size (Some h') = 0 /\
    Permutation l (elements demo_heap) /\
    StronglySorted (fun a b => demo_cmp b a <= 0) l.
Proof.
  apply (proj1 extract_until_empty_ordered demo_heap).
  - apply int_cmp_contract.
  - apply demo_heap_wf.
  - apply demo_heap_property.
Defined.

(** C3: [heap_sort] leaves in the array a permutation of the input;
    when the transient heap is allocated and the comparator honours
    its contract, the array read front to back is in ascending
    priority order. *)
Theorem heap_sort_sorts (al : allocator) (arr : list ptr) (n : Z) (c : heap_cmp_fn) :
  n = len arr -> n * sizeof_ptr <= PTRDIFF_MAX ->
  exists out,
    heap_sort al arr n (Some c) = Ret out /\
    Permutation out arr /\
    (calloc_ok al = true -> grant al (n * sizeof_ptr) = true -> cmp_contract c ->
     StronglySorted (fun a b => c a b <= 0) out).
Proof.
  intros Hn Hmax.
  destruct (calloc_ok al && granted al (n * sizeof_ptr))%bool eqn:E.
  - apply andb_prop in E as [Hcal Hgr].
    destruct (heap_sort_ok al arr n c Hn Hcal Hgr) as (out & Hrun & Hperm & Hsorted).
    exists out. repeat split; try assumption. intros _ _ Hc. apply Hsorted. exact Hc.
  - exists arr. split; [| split; [reflexivity |]].
    + apply heap_sort_alloc_fails. unfold heap_build.
      destruct (calloc_ok al); [| reflexivity]. simpl in E.
      rewrite size_t_small by (unfold len, sizeof_ptr, PTRDIFF_MAX in *; lia).
      unfold malloc. rewrite E. reflexivity.
    + intros Hcal Hgr _. rewrite Hcal in E. simpl in E. unfold granted in E.
      rewrite Hgr in E. simpl in E. lia.
Qed.

Lemma heap_sort_sorts_witness :
  exists out,
    heap_sort always demo_arr 7 (Some demo_cmp) = Ret out /\
    Permutation out demo_arr /\
    (calloc_ok always = true -> grant always (7 * sizeof_ptr) = true ->
     cmp_contract demo_cmp ->
     StronglySorted (fun a b => demo_cmp a b <= 0) out).
Proof.
  apply (heap_sort_sorts always demo_arr 7 demo_cmp).
  - reflexivity.
  - unfold sizeof_ptr, PTRDIFF_MAX. lia.
Defined.

(** C4 (the size never exceeds the capacity, and insert never stores
    at an index at or beyond the capacity) is broken by the code: a
    heap built from an empty array has capacity 0; the first insert
    doubles 0 to 0, reallocates nothing, and stores the item at index
    0 of a buffer without slots. *)
Theorem build_empty_then_insert_out_of_bounds (c : heap_cmp_fn) (item : ptr) :
  exists h,
    heap_build always [] 0 (Some c) = Ret (Some h) /\
    size h = 0 /\ capacity h = 0 /\ data h = [] /\
    heap_reserve always (Some h) (size_t (capacity h * 2)) = Ret (0, Some h) /\
    store (data h) (size h) item = Fault /\
    heap_insert always (Some h) item = Fault.
Proof.
  exists (mkHeap [] 0 0 c). repeat split; reflexivity.
Qed.

(** C5: on a non-empty heap [replace(x)] and [extract()] followed by
    [insert(x)] return the same value, the old root, and leave heaps
    of the same size and capacity, with the same elements, both
    satisfying the heap property. *)
Theorem replace_equiv_extract_insert (al : allocator) (h : Heap) (item : ptr) :
  cmp_contract (cmp h) -> wf h -> heap_property h -> 0 < size h ->
  exists root hr he hi,
    heap_replace (Some h) item = Ret (root, Some hr) /\
    heap_extract (Some h) = Ret (root, Some he) /\
    heap_insert al (Some he) item = Ret (0, Some hi) /\
    root = get (data h) 0 /\
    size hr = size hi /\ capacity hr = capacity hi /\
    Permutation (elements hr) (elements hi) /\
    heap_property hr /\ heap_property hi /\
    heap_validate (Some hr) = Ret true /\ heap_validate (Some hi) = Ret true.
Proof.
  intros Hc [Hok Hcap] Ho Hpos. pose proof Hok as [Hsz Hobj].
  destruct (heap_replace_ok h item Hok Hpos)
    as (hr & Hrr & Hsr & Hcr & Hcmpr & Hlr & Hpr & Hor).
  destruct (heap_extract_ok h Hok Hpos)
    as (he & Hre & Hse & Hce & Hcmpe & Hle & Hpe & Hoe).
  assert (Hoke : mem_ok he) by (split; [lia | rewrite Hle; exact Hobj]).
  destruct (place_ok he item Hoke) as (hi & Hri & Hsi & Hci & Hcmpi & Hli & Hpi & Hoi); [lia |].
  assert (Hokr : mem_ok hr) by (split; [lia | rewrite Hlr; exact Hobj]).
  assert (Hoki : mem_ok hi) by (split; [lia | rewrite Hli, Hle; exact Hobj]).
  assert (Hpropr : heap_property hr) by (apply Hor; assumption).
  assert (Hpropi : heap_property hi).
  { apply Hoi; [rewrite Hcmpe; exact Hc | apply Hoe; assumption]. }
  exists (get (data h) 0), hr, he, hi. repeat split; try assumption; try lia.
  - rewrite heap_insert_unfold.
    rewrite (proj2 (Z.eqb_neq (size he) (capacity he))) by lia.
    cbn. exact Hri.
  - apply (Permutation_cons_inv (a := get (data h) 0)).
    rewrite Hpr, Hpi, perm_swap, Hpe. reflexivity.
  - apply heap_validate_true; assumption.
  - apply heap_validate_true; assumption.
Qed.

Lemma replace_equiv_extract_insert_witness :
  exists root hr he hi,
    heap_replace (Some demo_heap) 4096 = Ret (root, Some hr) /\
    heap_extract (Some demo_heap) = Ret (root, Some he) /\
    heap_insert never (Some he) 4096 = Ret (0, Some hi) /\
    root = get (data demo_heap) 0 /\
    size hr = size hi /\ capacity hr = capacity hi /\
    Permutation (elements hr) (elements hi) /\
    heap_property hr /\ heap_property hi /\
    heap_validate (Some hr) = Ret true /\ heap_validate (Some hi) = Ret true.
Proof.
  apply (replace_equiv_extract_insert never demo_heap 4096).
  - apply int_cmp_contract.
  - apply demo_heap_wf.
  - apply demo_heap_property.
  - simpl. lia.
Defined.

(** C6: on a heap of size zero, peek, extract and replace return
    NULL, the absence-of-value signal, and leave the heap as it was. *)
Theorem empty_heap_signals (h : Heap) (item : ptr) :
  size h = 0 ->
  heap_peek (Some h) = Ret NULL /\
  heap_extract (Some h) = Ret (NULL, Some h) /\
  heap_replace (Some h) item = Ret (NULL, Some h).
Proof.
  intros H0. split; [| split].
  - unfold heap_peek. rewrite H0. reflexivity.
  - apply heap_extract_empty. exact H0.
  - apply heap_replace_empty. exact H0.
Qed.

Lemma empty_heap_signals_witness :
  heap_peek (Some (mkHeap [0; 0] 0 2 demo_cmp)) = Ret NULL /\
  heap_extract (Some (mkHeap [0; 0] 0 2 demo_cmp))
    = Ret (NULL, Some (mkHeap [0; 0] 0 2 demo_cmp)) /\
  heap_replace (Some (mkHeap [0; 0] 0 2 demo_cmp)) 4096
    = Ret (NULL, Some (mkHeap [0; 0] 0 2 demo_cmp)).
Proof.
  apply (empty_heap_signals (mkHeap [0; 0] 0 2 demo_cmp) 4096). reflexivity.
Defined.

(** C7 (when size equals capacity, insert doubles the capacity before
    it places the item, and reports a failed growth with the heap
    unchanged) is broken by the code on a full heap of capacity 0, as
    [heap_build] returns for an empty array: [heap_reserve] is asked
    for 0 slots and returns 0 without allocating, so nothing grows
    and no failure is reported, whatever the allocator would do; the
    item is then stored outside the buffer. *)
Theorem insert_at_capacity_zero_grows_nothing (al : allocator) (h : Heap) (item : ptr) :
  wf h -> size h = capacity h -> capacity h = 0 ->
  heap_reserve al (Some h) (size_t (capacity h * 2)) = Ret (0, Some h) /\
  store (data h) (size h) item = Fault /\
  heap_insert al (Some h) item = Fault.
Proof.
  intros [Hok Hcap] Hfull H0. pose proof Hok as [Hsz Hobj].
  assert (Hres : heap_reserve al (Some h) (size_t (capacity h * 2)) = Ret (0, Some h)).
  { rewrite (heap_reserve_double al h Hok Hfull). rewrite H0. reflexivity. }
  split; [exact Hres |]. split.
  - apply store_fault. lia.
  - rewrite heap_insert_unfold. rewrite (proj2 (Z.eqb_eq _ _) Hfull). rewrite Hres.
    cbn. apply place_fault. lia.
Qed.

Lemma insert_at_capacity_zero_grows_nothing_witness :
  heap_build always [] 0 (Some demo_cmp) = Ret (Some (mkHeap [] 0 0 demo_cmp)) /\
  (heap_reserve never (Some (mkHeap [] 0 0 demo_cmp))
     (size_t (capacity (mkHeap [] 0 0 demo_cmp) * 2))
     = Ret (0, Some (mkHeap [] 0 0 demo_cmp)) /\
   store (data (mkHeap [] 0 0 demo_cmp)) (size (mkHeap [] 0 0 demo_cmp)) 4100 = Fault /\
   heap_insert never (Some (mkHeap [] 0 0 demo_cmp)) 4100 = Fault).
Proof.
  split; [reflexivity |].
  apply (insert_at_capacity_zero_grows_nothing never (mkHeap [] 0 0 demo_cmp) 4100).
  - unfold wf, mem_ok, len, sizeof_ptr, PTRDIFF_MAX. simpl. lia.
  - reflexivity.
  - reflexivity.
Defined.

(** C8: when its allocations succeed, [heap_build] on an array of [n]
    elements returns a heap whose buffer has exactly [n] slots and
    whose size is [n], obtained from the copy of the array by sifting
    down the indices n/2 - 1, ..., 0 in that order; it holds the
    elements of the array and [heap_validate] returns true on it. *)
Theorem heap_build_heapifies (al : allocator) (arr : list ptr) (n : Z) (c : heap_cmp_fn) :
  cmp_contract c -> n = len arr ->
  calloc_ok al = true -> granted al (n * sizeof_ptr) = true ->
  exists h,
    heap_build al arr n (Some c) = Ret (Some h) /\
    len (data h) = n /\ capacity h = n /\ size h = n /\ cmp h = c /\
    sift_down_each (countdown (Z.to_nat (n / 2))) (mkHeap arr n n c) = Ret h /\
    Permutation (data h) arr /\
    heap_validate (Some h) = Ret true.
Proof.
  intros Hc Hn Hcal Hgr.
  assert (Hn' : 0 <= n <= len arr) by (unfold len in *; lia).
  destruct (heap_build_ok al arr n c Hn' Hcal Hgr)
    as (h & Hrun & [Hok Hcap] & Hs & Hcapn & Hcmp & Hperm & Heach & Hord).
  rewrite take_ge in Hperm, Heach by (unfold len in Hn; lia).
  exists h. repeat split; try assumption.
  - lia.
  - apply heap_validate_true; [exact Hok | apply Hord; exact Hc].
Qed.

Lemma heap_build_heapifies_witness :
  exists h,
    heap_build always demo_arr 7 (Some demo_cmp) = Ret (Some h) /\
    len (data h) = 7 /\ capacity h = 7 /\ size h = 7 /\ cmp h = demo_cmp /\
    sift_down_each (countdown (Z.to_nat (7 / 2))) (mkHeap demo_arr 7 7 demo_cmp) = Ret h /\
    Permutation (data h) demo_arr /\
    heap_validate (Some h) = Ret true.
Proof.
  apply (heap_build_heapifies always demo_arr 7 demo_cmp).
  - apply int_cmp_contract.
  - reflexivity.
  - reflexivity.
  - reflexivity.
Defined.

(** C9: on a null handle, peek, extract and replace return NULL, size
    returns 0, validate returns false, clear and destroy do nothing;
    none of these calls faults. *)
Theorem null_handle_is_checked (item : ptr) :
  heap_peek None = Ret NULL /\
  heap_extract None = Ret (NULL, None) /\
  heap_replace None item = Ret (NULL, None) /\
  heap_size None = 0 /\
  heap_validate None = Ret false /\
  heap_clear None = None /\
  heap_destroy None = Ret tt.
Proof. repeat split; reflexivity. Qed.

(** C10: when [heap_build] returns NULL inside [heap_sort], the call
    returns with the array as it was; the call has no result that
    tells the failure, and on an array that is already in order the
    failed and the successful sort leave the same array behind. *)
Theorem heap_sort_silent_failure :
  (forall al arr n cmp,
     heap_build al arr n cmp = Ret None -> heap_sort al arr n cmp = Ret arr) /\
  heap_build never [4108; 4100; 4120] 3 (Some demo_cmp) = Ret None /\
  heap_build always [4108; 4100; 4120] 3 (Some demo_cmp) <> Ret None /\
  heap_sort never [4108; 4100; 4120] 3 (Some demo_cmp)
    = heap_sort always [4108; 4100; 4120] 3 (Some demo_cmp).
Proof.
  split; [| split; [| split]].
  - intros al arr n cmp0 H. apply heap_sort_alloc_fails. exact H.
  - reflexivity.
  - intros H. discriminate H.
  - vm_compute. reflexivity.
Qed.

Lemma heap_sort_silent_failure_witness :
  heap_sort never demo_arr 7 (Some demo_cmp) = Ret demo_arr.
Proof.
  apply (proj1 heap_sort_silent_failure never demo_arr 7 (Some demo_cmp)).
  reflexivity.
Defined.

(** * More of the public API *)

(** ** validate, peek, extract, replace *)

(** X1: on a heap whose accesses are in bounds, [heap_validate]
    returns, and it returns true exactly when no element at an index
    [1 <= i < size] outranks the element at its parent. *)
Theorem heap_validate_decides (h : Heap) :
  mem_ok h ->
  exists b,
    heap_validate (Some h) = Ret b /\
    (b = true <->
     forall i, 1 <= i < size h ->
       cmp h (get (data h) i) (get (data h) (Ix.parent i)) <= 0).
Proof.
  intros Hok. destruct (heap_validate_ok h Hok) as (b & Hrun & Hb).
  exists b. split; [exact Hrun | exact Hb].
Qed.

Lemma heap_validate_decides_witness :
  exists b,
    heap_validate (Some broken_heap) = Ret b /\
    (b = true <->
     forall i, 1 <= i < size broken_heap ->
       cmp broken_heap (get (data broken_heap) i)
           (get (data broken_heap) (Ix.parent i)) <= 0).
Proof.
  apply (heap_validate_decides broken_heap).
  unfold mem_ok, len, sizeof_ptr, PTRDIFF_MAX. simpl. lia.
Defined.

Lemma root_in_elements h : mem_ok h -> 0 < size h -> get (data h) 0 ∈ elements h.
Proof.
  intros [Hsz _] Hpos. unfold elements.
  apply list_elem_of_lookup. exists 0%nat.
  rewrite lookup_take_lt by lia. apply (lookup_get (data h) 0). lia.
Qed.

(** X2: on a non-empty heap that satisfies the heap property,
    [heap_peek] returns an element of the heap that no element of the
    heap outranks. *)
Theorem heap_peek_maximum (h : Heap) :
  cmp_contract (cmp h) -> mem_ok h -> heap_property h -> 0 < size h ->
  exists r,
    heap_peek (Some h) = Ret r /\
    r ∈ elements h /\
    (forall x, x ∈ elements h -> cmp h x r <= 0).
Proof.
  intros Hc Hok Ho Hpos. pose proof Hok as [Hsz _].
  exists (get (data h) 0). split; [| split].
  - unfold heap_peek. rewrite (proj2 (Z.ltb_lt 0 (size h))) by lia.
    apply load_ok. lia.
  - apply root_in_elements; assumption.
  - apply elements_le_root; assumption.
Qed.

Lemma heap_peek_maximum_witness :
  exists r,
    heap_peek (Some demo_heap) = Ret r /\
    r ∈ elements demo_heap /\
    (forall x, x ∈ elements demo_heap -> cmp demo_heap x r <= 0).
Proof.
  apply (heap_peek_maximum demo_heap).
  - apply int_cmp_contract.
  - apply demo_heap_wf.
  - apply demo_heap_property.
  - simpl. lia.
Defined.

(** X3: on a non-empty heap that satisfies the heap property,
    [heap_extract] returns the element [heap_peek] returns, which no
    element outranks; it removes one occurrence of it, the size drops
    by one, the capacity stays and the heap property still holds. *)
Theorem heap_extract_maximum (h : Heap) :
  cmp_contract (cmp h) -> mem_ok h -> heap_property h -> 0 < size h ->
  exists r h',
    heap_peek (Some h) = Ret r /\
    heap_extract (Some h) = Ret (r, Some h') /\
    (forall x, x ∈ elements h -> cmp h x r <= 0) /\
    Permutation (r :: elements h') (elements h) /\
    size h' = size h - 1 /\ capacity h' = capacity h /\ cmp h' = cmp h /\
    mem_ok h' /\ heap_property h'.
Proof.
  intros Hc Hok Ho Hpos. pose proof Hok as [Hsz Hobj].
  destruct (heap_extract_ok h Hok Hpos) as (h' & Hrun & Hs & Hcap & Hcmp & Hl & Hperm & Hord).
  exists (get (data h) 0), h'.
  split.
  { unfold heap_peek. rewrite (proj2 (Z.ltb_lt 0 (size h))) by lia. apply load_ok. lia. }
  split; [exact Hrun |].
  split; [apply elements_le_root; assumption |].
  split; [exact Hperm |].
  split; [exact Hs |]. split; [exact Hcap |]. split; [exact Hcmp |].
  split; [split; [lia | rewrite Hl; exact Hobj] |].
  apply Hord; assumption.
Qed.

Lemma heap_extract_maximum_witness :
  exists r h',
    heap_peek (Some demo_heap) = Ret r /\
    heap_extract (Some demo_heap) = Ret (r, Some h') /\
    (forall x, x ∈ elements demo_heap -> cmp demo_heap x r <= 0) /\
    Permutation (r :: elements h') (elements demo_heap) /\
    size h' = size demo_heap - 1 /\ capacity h' = capacity demo_heap /\
    cmp h' = cmp demo_heap /\
    mem_ok h' /\ heap_property h'.
Proof.
  apply (heap_extract_maximum demo_heap).
  - apply int_cmp_contract.
  - apply demo_heap_wf.
  - apply demo_heap_property.
  - simpl. lia.
Defined.

(** X4: on a non-empty heap that satisfies the heap property,
    [heap_replace] returns the element [heap_peek] returns and leaves
    a heap of the same size and capacity that holds the item in place
    of one occurrence of it and satisfies the heap property. *)
Theorem heap_replace_swaps_root (h : Heap) (item : ptr) :
  cmp_contract (cmp h) -> mem_ok h -> heap_property h -> 0 < size h ->
  exists r h',
    heap_replace (Some h) item = Ret (r, Some h') /\
    heap_peek (Some h) = Ret r /\
    Permutation (r :: elements h') (item :: elements h) /\
    size h' = size h /\ capacity h' = capacity h /\ cmp h' = cmp h /\
    mem_ok h' /\ heap_property h'.
Proof.
  intros Hc Hok Ho Hpos. pose proof Hok as [Hsz Hobj].
  destruct (heap_replace_ok h item Hok Hpos)
    as (h' & Hrun & Hs & Hcap & Hcmp & Hl & Hperm & Hord).
  exists (get (data h) 0), h'.
  split; [exact Hrun |].
  split.
  { unfold heap_peek. rewrite (proj2 (Z.ltb_lt 0 (size h))) by lia. apply load_ok. lia. }
  split; [exact Hperm |].
  split; [exact Hs |]. split; [exact Hcap |]. split; [exact Hcmp |].
  split; [split; [lia | rewrite Hl; exact Hobj] |].
  apply Hord; assumption.
Qed.

Lemma heap_replace_swaps_root_witness :
  exists r h',
    heap_replace (Some demo_heap) 4100 = Ret (r, Some h') /\
    heap_peek (Some demo_heap) = Ret r /\
    Permutation (r :: elements h') (4100 :: elements demo_heap) /\
    size h' = size demo_heap /\ capacity h' = capacity demo_heap /\
    cmp h' = cmp demo_heap /\
    mem_ok h' /\ heap_property h'.
Proof.
  apply (heap_replace_swaps_root demo_heap 4100).
  - apply int_cmp_contract.
  - apply demo_heap_wf.
  - apply demo_heap_property.
  - simpl. lia.
Defined.

(** ** insert, reserve, create *)

Lemma heap_insert_room al h item :
  wf h -> size h < capacity h ->
  exists h',
    heap_insert al (Some h) item = Ret (0, Some h') /\
    wf h' /\ capacity h' = capacity h /\ size h' = size h + 1 /\ cmp h' = cmp h /\
    Permutation (elements h') (item :: elements h) /\
    (cmp_contract (cmp h) -> heap_property h -> heap_property h').
Proof.
  intros [Hok Hcap] Hroom.
  destruct (place_inserted h item Hok) as (h' & Hrun & Hins & Hc' & Hl'); [lia |].
  destruct Hins as (Hok' & Hs' & Hcmp' & Hp' & Ho').
  exists h'. split.
  { rewrite heap_insert_unfold.
    rewrite (proj2 (Z.eqb_neq (size h) (capacity h))) by lia. cbn. exact Hrun. }
  split; [split; [exact Hok' | lia] |].
  split; [exact Hc' |]. split; [exact Hs' |]. split; [exact Hcmp' |].
  split; [exact Hp' | exact Ho'].
Qed.

(** X5: while size is below capacity, [heap_insert] returns 0
    whatever the allocator does (also with one that always fails): the
    capacity stays, the size grows by one, the item joins the
    elements, and the heap property is kept. *)
Theorem heap_insert_with_room (al : allocator) (h : Heap) (item : ptr) :
  wf h -> size h < capacity h ->
  exists h',
    heap_insert al (Some h) item = Ret (0, Some h') /\
    heap_insert never (Some h) item = Ret (0, Some h') /\
    wf h' /\ capacity h' = capacity h /\ size h' = size h + 1 /\ cmp h' = cmp h /\
    Permutation (elements h') (item :: elements h) /\
    (cmp_contract (cmp h) -> heap_property h -> heap_property h').
Proof.
  intros Hwf Hroom.
  destruct (heap_insert_room al h item Hwf Hroom) as (h' & Hrun & Hrest).
  exists h'. split; [exact Hrun |]. split; [| exact Hrest].
  rewrite <- Hrun. rewrite !heap_insert_unfold.
  rewrite (proj2 (Z.eqb_neq (size h) (capacity h))) by lia. reflexivity.
Qed.

Lemma roomy_heap_wf : wf roomy_heap.
Proof. unfold wf, mem_ok, len, sizeof_ptr, PTRDIFF_MAX. simpl. lia. Qed.

Lemma idle_heap_wf : wf idle_heap.
Proof. unfold wf, mem_ok, len, sizeof_ptr, PTRDIFF_MAX. simpl. lia. Qed.

Lemma heap_insert_with_room_witness :
  exists h',
    heap_insert always (Some roomy_heap) 4100 = Ret (0, Some h') /\
    heap_insert never (Some roomy_heap) 4100 = Ret (0, Some h') /\
    wf h' /\ capacity h' = capacity roomy_heap /\ size h' = size roomy_heap + 1 /\
    cmp h' = cmp roomy_heap /\
    Permutation (elements h') (4100 :: elements roomy_heap) /\
    (cmp_contract (cmp roomy_heap) -> heap_property roomy_heap -> heap_property h').
Proof.
  apply (heap_insert_with_room always roomy_heap 4100).
  - apply roomy_heap_wf.
  - simpl. lia.
Defined.

Lemma insert_all_room al items : forall h,
  wf h -> size h + len items <= capacity h ->
  exists h',
    insert_all al (Some h) items = Ret (0, Some h') /\
    wf h' /\ capacity h' = capacity h /\ size h' = size h + len items /\
    cmp h' = cmp h /\
    Permutation (elements h') (items ++ elements h) /\
    (cmp_contract (cmp h) -> heap_property h -> heap_property h').
Proof.
  induction items as [| x items IH]; intros h Hwf Hroom.
  - exists h. unfold len in *. simpl in *.
    split; [reflexivity |]. split; [exact Hwf |].
    split; [reflexivity |]. split; [lia |]. split; [reflexivity |].
    split; [reflexivity |]. intros _ Ho. exact Ho.
  - unfold len in Hroom. simpl length in Hroom.
    destruct (heap_insert_room al h x Hwf) as (h1 & Hrun & Hwf1 & Hc1 & Hs1 & Hcmp1 & Hp1 & Ho1);
      [lia |].
    destruct (IH h1 Hwf1) as (h' & Hrun' & Hwf' & Hc' & Hs' & Hcmp' & Hp' & Ho');
      [unfold len; lia |].
    exists h'. cbn [insert_all]. rewrite Hrun. cbn. rewrite Hrun'.
    split; [reflexivity |]. split; [exact Hwf' |].
    split; [lia |]. split; [unfold len in *; simpl length; lia |].
    split; [congruence |].
    split.
    + rewrite Hp', Hp1. simpl. symmetry. apply Permutation_middle.
    + intros Hc Ho. apply Ho'; [rewrite Hcmp1; exact Hc | apply Ho1; assumption].
Qed.

(** X6: inserting a list of items that fits in the spare capacity
    succeeds for every item without growing the heap: capacity
    unchanged, size grown by the number of items, all items added,
    heap property kept. *)
Theorem insert_all_within_capacity (al : allocator) (h : Heap) (items : list ptr) :
  wf h -> size h + len items <= capacity h ->
  exists h',
    insert_all al (Some h) items = Ret (0, Some h') /\
    wf h' /\ capacity h' = capacity h /\ size h' = size h + len items /\
    Permutation (elements h') (items ++ elements h) /\
    (cmp_contract (cmp h) -> heap_property h -> heap_property h').
Proof.
  intros Hwf Hroom.
  destruct (insert_all_room al items h Hwf Hroom)
    as (h' & Hrun & Hwf' & Hc' & Hs' & _ & Hp' & Ho').
  exists h'. split; [exact Hrun |]. split; [exact Hwf' |].
  split; [exact Hc' |]. split; [exact Hs' |]. split; [exact Hp' | exact Ho'].
Qed.

Lemma insert_all_within_capacity_witness :
  exists h',
    insert_all never (Some roomy_heap) [4100; 4108] = Ret (0, Some h') /\
    wf h' /\ capacity h' = capacity roomy_heap /\
    size h' = size roomy_heap + len [4100; 4108] /\
    Permutation (elements h') ([4100; 4108] ++ elements roomy_heap) /\
    (cmp_contract (cmp roomy_heap) -> heap_property roomy_heap -> heap_property h').
Proof.
  apply (insert_all_within_capacity never roomy_heap [4100; 4108]).
  - apply roomy_heap_wf.
  - unfold len. simpl. lia.
Defined.

Lemma heap_reserve_cases al h n :
  wf h -> 0 <= n -> n * sizeof_ptr < 2 ^ 64 ->
  exists rc h1,
    heap_reserve al (Some h) n = Ret (rc, Some h1) /\
    wf h1 /\ size h1 = size h /\ cmp h1 = cmp h /\ elements h1 = elements h /\
    (heap_property h -> heap_property h1) /\
    ((rc = 0 /\ n <= capacity h1 /\ (h1 = h \/ capacity h1 = n)) \/
     (rc = -1 /\ h1 = h /\ capacity h < n /\ granted al (n * sizeof_ptr) = false)).
Proof.
  intros [Hok Hcap] Hn Hbytes. pose proof (mem_ok_len h Hok) as Hlen.
  pose proof Hok as [Hsz Hobj].
  unfold heap_reserve. cbn [deref bind].
  destruct (Z.leb_spec n (capacity h)) as [Hle | Hgt].
  - exists 0, h. split; [reflexivity |].
    split; [split; assumption |].
    split; [reflexivity |]. split; [reflexivity |]. split; [reflexivity |].
    split; [intros Ho; exact Ho |].
    left. split; [reflexivity |]. split; [exact Hle |]. left. reflexivity.
  - rewrite size_t_small by (unfold sizeof_ptr in *; lia).
    destruct (realloc al (data h) (n * sizeof_ptr)) as [tmp |] eqn:Hre.
    + apply realloc_Some in Hre as (Hl & Hmax & Hkeep); [| unfold sizeof_ptr; lia].
      assert (Hlt : len tmp = n) by (rewrite Hl; unfold sizeof_ptr; lia).
      assert (Ht : take (Z.to_nat (size h)) tmp = take (Z.to_nat (size h)) (data h)).
      { apply Hkeep; unfold sizeof_ptr; lia. }
      exists 0, (set_capacity (set_data h tmp) n). cbn [size capacity cmp data set_data set_capacity].
      split; [reflexivity |].
      split.
      { unfold wf, mem_ok. cbn [size capacity cmp data set_data set_capacity].
        rewrite Hlt. unfold sizeof_ptr in *. lia. }
      split; [reflexivity |]. split; [reflexivity |].
      split; [exact Ht |].
      split.
      { intros Ho. unfold heap_property. cbn [size capacity cmp data set_data set_capacity].
        apply heap_ordered_ext with (data h); [lia | | exact Ho].
        intros j Hj. apply (get_of_take _ _ (Z.to_nat (size h))); [exact Ht | lia]. }
      left. split; [reflexivity |]. split; [lia |]. right. reflexivity.
    + exists (-1), h. split; [reflexivity |].
      split; [split; assumption |].
      split; [reflexivity |]. split; [reflexivity |]. split; [reflexivity |].
      split; [intros Ho; exact Ho |].
      right. split; [reflexivity |]. split; [reflexivity |]. split; [lia |].
      unfold realloc in Hre. destruct (granted al (n * sizeof_ptr)); [discriminate | reflexivity].
Qed.



(** X8: after [heap_reserve(h, n)] returned 0 for a request whose
    byte size [n * sizeof(void * )] does not overflow, inserting items
    up to a total size of [n] succeeds for every item, whatever the
    allocator does then, and leaves the capacity as reserve set it. *)
Theorem reserve_then_inserts_succeed (al al' : allocator) (h h1 : Heap) (n : Z)
    (items : list ptr) :
  wf h -> 0 <= n -> n * sizeof_ptr < 2 ^ 64 ->
  heap_reserve al (Some h) n = Ret (0, Some h1) ->
  size h + len items <= n ->
  exists h',
    insert_all al' (Some h1) items = Ret (0, Some h') /\
    capacity h' = capacity h1 /\ size h' = size h + len items /\
    Permutation (elements h') (items ++ elements h) /\
    (cmp_contract (cmp h) -> heap_property h -> heap_property h').
Proof.
  intros Hwf Hn Hbytes Hrun Hroom.
  destruct (heap_reserve_cases al h n Hwf Hn Hbytes)
    as (rc & h1' & Hrun' & Hwf1 & Hs1 & Hcmp1 & Hel1 & Ho1 & Hcase).
  rewrite Hrun in Hrun'. injection Hrun' as <- <-.
  destruct Hcase as [(_ & Hcap & _) | (Hrc & _)]; [| discriminate].
  destruct (insert_all_room al' items h1 Hwf1)
    as (h' & Hins & _ & Hc' & Hs' & _ & Hp' & Ho'); [lia |].
  exists h'. split; [exact Hins |]. split; [exact Hc' |]. split; [lia |].
  split; [rewrite Hp', Hel1; reflexivity |].
  intros Hc Ho. apply Ho'; [rewrite Hcmp1; exact Hc | apply Ho1; exact Ho].
Qed.

Lemma reserve_then_inserts_succeed_witness :
  exists h',
    insert_all never (Some (mkHeap [4104; 4096; 0; 0; 0] 2 5 demo_cmp)) [4100; 4108; 4112]
      = Ret (0, Some h') /\
    capacity h' = capacity (mkHeap [4104; 4096; 0; 0; 0] 2 5 demo_cmp) /\
    size h' = size small_heap + len [4100; 4108; 4112] /\
    Permutation (elements h') ([4100; 4108; 4112] ++ elements small_heap) /\
    (cmp_contract (cmp small_heap) -> heap_property small_heap -> heap_property h').
Proof.
  apply (reserve_then_inserts_succeed always never small_heap _ 5).
  - apply small_heap_wf.
  - lia.
  - unfold sizeof_ptr. lia.
  - reflexivity.
  - unfold len. simpl. lia.
Defined.

(** X9: [heap_reserve] does not check [n * sizeof(void * )] for
    overflow: whenever it returns 0 for a request of 2^60 slots or
    more, the capacity recorded is [n] while the buffer has fewer than
    2^60 slots. *)
Theorem heap_reserve_overflow (al : allocator) (h h1 : Heap) (n : Z) :
  capacity h < n -> 2 ^ 60 <= n ->
  heap_reserve al (Some h) n = Ret (0, Some h1) ->
  capacity h1 = n /\ len (data h1) < 2 ^ 60 /\ cmp h1 = cmp h /\ size h1 = size h.
Proof.
  intros Hgt Hbig Hrun. unfold heap_reserve in Hrun. cbn [deref bind] in Hrun.
  rewrite (proj2 (Z.leb_gt _ _)) in Hrun by lia.
  destruct (realloc _ _ _) as [tmp |] eqn:Hre; [| discriminate].
  injection Hrun as <-. cbn [size capacity cmp data set_data set_capacity].
  apply realloc_Some in Hre as (Hl & Hmax & _); [| apply size_t_nonneg].
  repeat split; try reflexivity.
  pose proof (size_t_nonneg (n * sizeof_ptr)).
  rewrite Hl. unfold sizeof_ptr, PTRDIFF_MAX in *. lia.
Qed.

Lemma heap_reserve_overflow_witness :
  capacity (mkHeap [4104] 2 (2 ^ 61 + 1) demo_cmp) = 2 ^ 61 + 1 /\
  len (data (mkHeap [4104] 2 (2 ^ 61 + 1) demo_cmp)) < 2 ^ 60 /\
  cmp (mkHeap [4104] 2 (2 ^ 61 + 1) demo_cmp) = cmp small_heap /\
  size (mkHeap [4104] 2 (2 ^ 61 + 1) demo_cmp) = size small_heap.
Proof.
  apply (heap_reserve_overflow always small_heap _ (2 ^ 61 + 1)).
  - simpl. lia.
  - lia.
  - reflexivity.
Defined.

(** X10: [heap_create] with a capacity whose byte size fits returns,
    when both allocations succeed, an empty well-formed heap whose
    capacity is the one asked for, or 16 when 0 was asked for; when
    an allocation fails it returns NULL. *)
Theorem heap_create_empty_heap (al : allocator) (c : heap_cmp_fn) (cap : Z) :
  0 <= cap -> created_capacity cap * sizeof_ptr <= PTRDIFF_MAX ->
  (calloc_ok al = true -> grant al (created_capacity cap * sizeof_ptr) = true ->
   exists h,
     heap_create al (Some c) cap = Some h /\
     wf h /\ size h = 0 /\ capacity h = created_capacity cap /\ 0 < capacity h /\
     cmp h = c /\
     heap_validate (Some h) = Ret true /\ heap_peek (Some h) = Ret NULL) /\
  (calloc_ok al = false \/ grant al (created_capacity cap * sizeof_ptr) = false ->
   heap_create al (Some c) cap = None).
Proof.
  intros Hcap Hmax. unfold created_capacity in *.
  set (k := if cap =? 0 then HEAP_DEFAULT_CAP else cap) in *.
  assert (Hk : 0 < k).
  { unfold k, HEAP_DEFAULT_CAP. destruct (Z.eqb_spec cap 0); lia. }
  unfold heap_create. fold k.
  rewrite size_t_small by (unfold sizeof_ptr, PTRDIFF_MAX in *; lia).
  split.
  - intros Hcal Hgr. rewrite Hcal.
    assert (Hg : granted al (k * sizeof_ptr) = true).
    { unfold granted. rewrite Hgr. simpl. apply Z.leb_le. exact Hmax. }
    rewrite (malloc_granted _ _ Hg).
    set (buf := fresh al 0 (Z.to_nat (k * sizeof_ptr / sizeof_ptr))).
    assert (Hl : len buf = k).
    { unfold buf. rewrite len_fresh. unfold sizeof_ptr. lia. }
    exists (mkHeap buf 0 k c).
    assert (Hwf : wf (mkHeap buf 0 k c)).
    { unfold wf, mem_ok. simpl. rewrite Hl. lia. }
    split; [reflexivity |]. split; [exact Hwf |].
    split; [reflexivity |]. split; [reflexivity |]. split; [exact Hk |].
    split; [reflexivity |]. split; [| reflexivity].
    apply heap_validate_true; [apply Hwf |].
    intros j Hj. simpl in Hj. lia.
  - intros [Hcal | Hgr].
    + rewrite Hcal. reflexivity.
    + destruct (calloc_ok al); [| reflexivity].
      unfold malloc, granted. rewrite Hgr. reflexivity.
Qed.

Lemma heap_create_empty_heap_witness :
  (calloc_ok always = true -> grant always (created_capacity 0 * sizeof_ptr) = true ->
   exists h,
     heap_create always (Some demo_cmp) 0 = Some h /\
     wf h /\ size h = 0 /\ capacity h = created_capacity 0 /\ 0 < capacity h /\
     cmp h = demo_cmp /\
     heap_validate (Some h) = Ret true /\ heap_peek (Some h) = Ret NULL) /\
  (calloc_ok always = false \/ grant always (created_capacity 0 * sizeof_ptr) = false ->
   heap_create always (Some demo_cmp) 0 = None).
Proof.
  apply (heap_create_empty_heap always demo_cmp 0).
  - lia.
  - unfold created_capacity, HEAP_DEFAULT_CAP, sizeof_ptr, PTRDIFF_MAX. simpl. lia.
Defined.

(** X11: [heap_create] does not check [capacity * sizeof(void * )]
    for overflow: any heap it returns for a capacity of 2^60 or more
    records that capacity while owning fewer than 2^60 slots. *)
Theorem heap_create_overflow (al : allocator) (c : heap_cmp_fn) (cap : Z) (h : Heap) :
  2 ^ 60 <= cap ->
  heap_create al (Some c) cap = Some h ->
  capacity h = cap /\ size h = 0 /\ len (data h) < 2 ^ 60.
Proof.
  intros Hbig Hrun. unfold heap_create in Hrun.
  rewrite (proj2 (Z.eqb_neq cap 0)) in Hrun by lia.
  destruct (calloc_ok al); [| discriminate].
  destruct (malloc _ _) as [buf |] eqn:Hm; [| discriminate].
  injection Hrun as <-. simpl.
  apply malloc_Some in Hm as [Hl Hmax]; [| apply size_t_nonneg].
  pose proof (size_t_nonneg (cap * sizeof_ptr)).
  repeat split. rewrite Hl. unfold sizeof_ptr, PTRDIFF_MAX in *. lia.
Qed.

Lemma heap_create_overflow_witness :
  capacity (mkHeap [0; 0] 0 (2 ^ 61 + 2) demo_cmp) = 2 ^ 61 + 2 /\
  size (mkHeap [0; 0] 0 (2 ^ 61 + 2) demo_cmp) = 0 /\
  len (data (mkHeap [0; 0] 0 (2 ^ 61 + 2) demo_cmp)) < 2 ^ 60.
Proof.
  apply (heap_create_overflow always demo_cmp (2 ^ 61 + 2)).
  - lia.
  - reflexivity.
Defined.

(** X12: [heap_insert] trusts the capacity field: on a heap whose
    buffer is full while the capacity field is larger, it stores the
    item outside the buffer. *)
Theorem heap_insert_trusts_capacity (al : allocator) (h : Heap) (item : ptr) :
  0 <= size h -> size h = len (data h) -> size h < capacity h ->
  heap_insert al (Some h) item = Fault.
Proof.
  intros Hs Hfull Hcap. rewrite heap_insert_unfold.
  rewrite (proj2 (Z.eqb_neq (size h) (capacity h))) by lia. cbn.
  apply place_fault. lia.
Qed.

Lemma heap_insert_trusts_capacity_witness :
  heap_insert always (Some (mkHeap [4104; 4096] 2 (2 ^ 61 + 2) demo_cmp)) 4100 = Fault.
Proof.
  apply (heap_insert_trusts_capacity always (mkHeap [4104; 4096] 2 (2 ^ 61 + 2) demo_cmp) 4100).
  - simpl. lia.
  - reflexivity.
  - simpl. lia.
Defined.

(** ** trim, clone, clear *)

(** X13: on a non-empty well-formed heap [heap_trim] keeps size,
    elements and heap property; the capacity becomes the size when the
    reallocation succeeds, and the heap is untouched when it fails. *)
Theorem heap_trim_keeps_heap (al : allocator) (h : Heap) :
  wf h -> 0 < size h ->
  exists h1,
    heap_trim al (Some h) = Ret (Some h1) /\
    wf h1 /\ size h1 = size h /\ cmp h1 = cmp h /\ elements h1 = elements h /\
    (heap_property h -> heap_property h1) /\
    (h1 = h \/ capacity h1 = size h) /\
    (grant al (size h * sizeof_ptr) = true -> capacity h1 = size h) /\
    (grant al (size h * sizeof_ptr) = false -> h1 = h).
Proof.
  intros [Hok Hcap] Hpos. pose proof (mem_ok_len h Hok) as Hlen.
  pose proof Hok as [Hsz Hobj].
  unfold heap_trim. cbn [deref bind].
  destruct (Z.eqb_spec (capacity h) (size h)) as [Heq | Hne].
  - exists h. split; [reflexivity |]. split; [split; assumption |].
    split; [reflexivity |]. split; [reflexivity |]. split; [reflexivity |].
    split; [intros Ho; exact Ho |]. split; [left; reflexivity |].
    split; [intros _; exact Heq | intros _; reflexivity].
  - rewrite size_t_small by (unfold sizeof_ptr; lia).
    destruct (realloc al (data h) (size h * sizeof_ptr)) as [tmp |] eqn:Hre.
    + pose proof Hre as Hre'.
      apply realloc_Some in Hre as (Hl & Hmax & Hkeep); [| unfold sizeof_ptr; lia].
      assert (Hlt : len tmp = size h) by (rewrite Hl; unfold sizeof_ptr; lia).
      assert (Ht : take (Z.to_nat (size h)) tmp = take (Z.to_nat (size h)) (data h)).
      { apply Hkeep; unfold sizeof_ptr; lia. }
      exists (set_capacity (set_data h tmp) (size h)).
      cbn [size capacity cmp data set_data set_capacity].
      split; [reflexivity |].
      split.
      { unfold wf, mem_ok. cbn [size capacity cmp data set_data set_capacity].
        rewrite Hlt. unfold sizeof_ptr in *. lia. }
      split; [reflexivity |]. split; [reflexivity |]. split; [exact Ht |].
      split.
      { intros Ho. unfold heap_property. cbn [size capacity cmp data set_data set_capacity].
        apply heap_ordered_ext with (data h); [lia | | exact Ho].
        intros j Hj. apply (get_of_take _ _ (Z.to_nat (size h))); [exact Ht | lia]. }
      split; [right; reflexivity |]. split; [intros _; reflexivity |].
      intros Hgr. unfold realloc, granted in Hre'. rewrite Hgr in Hre'. discriminate.
    + exists h. split; [reflexivity |]. split; [split; assumption |].
      split; [reflexivity |]. split; [reflexivity |]. split; [reflexivity |].
      split; [intros Ho; exact Ho |]. split; [left; reflexivity |].
      split; [| intros _; reflexivity].
      intros Hgr. unfold realloc, granted in Hre. rewrite Hgr in Hre. simpl in Hre.
      rewrite (proj2 (Z.leb_le _ _)) in Hre by (unfold sizeof_ptr in *; lia).
      discriminate.
Qed.

Lemma heap_trim_keeps_heap_witness :
  exists h1,
    heap_trim always (Some roomy_heap) = Ret (Some h1) /\
    wf h1 /\ size h1 = size roomy_heap /\ cmp h1 = cmp roomy_heap /\
    elements h1 = elements roomy_heap /\
    (heap_property roomy_heap -> heap_property h1) /\
    (h1 = roomy_heap \/ capacity h1 = size roomy_heap) /\
    (grant always (size roomy_heap * sizeof_ptr) = true -> capacity h1 = size roomy_heap) /\
    (grant always (size roomy_heap * sizeof_ptr) = false -> h1 = roomy_heap).
Proof.
  apply (heap_trim_keeps_heap always roomy_heap).
  - apply roomy_heap_wf.
  - simpl. lia.
Defined.

(** X14: trimming an empty heap, where [realloc(p, 0)] returns a
    block, leaves capacity 0 and a buffer without slots; the next
    [heap_insert] doubles 0 to 0 and stores outside the buffer. *)
Theorem heap_trim_empty_then_insert (al al' : allocator) (h : Heap) (item : ptr) :
  size h = 0 -> 0 < capacity h -> granted al 0 = true ->
  exists h1,
    heap_trim al (Some h) = Ret (Some h1) /\
    size h1 = 0 /\ capacity h1 = 0 /\ data h1 = [] /\
    heap_insert al' (Some h1) item = Fault.
Proof.
  destruct h as [d s k c]. cbn [size capacity cmp data]. intros Hs Hcap Hgr. subst s.
  exists (mkHeap [] 0 0 c).
  split.
  { unfold heap_trim. cbn [deref bind size capacity cmp data].
    rewrite (proj2 (Z.eqb_neq k 0)) by lia.
    change (size_t (0 * sizeof_ptr)) with 0. unfold realloc. rewrite Hgr. reflexivity. }
  split; [reflexivity |]. split; [reflexivity |]. split; [reflexivity |].
  reflexivity.
Qed.

Lemma heap_trim_empty_then_insert_witness :
  exists h1,
    heap_trim always (Some idle_heap) = Ret (Some h1) /\
    size h1 = 0 /\ capacity h1 = 0 /\ data h1 = [] /\
    heap_insert always (Some h1) 4100 = Fault.
Proof.
  apply (heap_trim_empty_then_insert always always idle_heap 4100).
  - reflexivity.
  - simpl. lia.
  - reflexivity.
Defined.

Lemma heap_create_granted al c cap :
  0 <= cap -> created_capacity cap * sizeof_ptr <= PTRDIFF_MAX ->
  calloc_ok al = true -> grant al (created_capacity cap * sizeof_ptr) = true ->
  heap_create al (Some c) cap
    = Some (mkHeap (fresh al 0 (Z.to_nat (created_capacity cap))) 0 (created_capacity cap) c)
  /\ 0 < created_capacity cap.
Proof.
  intros Hcap Hmax Hcal Hgr.
  assert (Hk : 0 < created_capacity cap).
  { unfold created_capacity, HEAP_DEFAULT_CAP. destruct (Z.eqb_spec cap 0); lia. }
  split; [| exact Hk].
  unfold heap_create. fold (created_capacity cap). rewrite Hcal.
  rewrite size_t_small by (unfold sizeof_ptr, PTRDIFF_MAX in *; lia).
  assert (Hg : granted al (created_capacity cap * sizeof_ptr) = true).
  { unfold granted. rewrite Hgr. simpl. apply Z.leb_le. exact Hmax. }
  rewrite (malloc_granted _ _ Hg). do 3 f_equal. unfold sizeof_ptr. lia.
Qed.

Lemma memcpy_prefix dst src n :
  0 <= n <= len dst -> n <= len src ->
  memcpy dst src (n * sizeof_ptr) = Ret (take (Z.to_nat n) src ++ drop (Z.to_nat n) dst).
Proof.
  intros Hd Hs. unfold memcpy, len, sizeof_ptr in *.
  replace (Z.to_nat (n * 8 / 8)) with (Z.to_nat n) by lia.
  rewrite (proj2 (Nat.leb_le _ _)) by lia.
  rewrite (proj2 (Nat.leb_le _ _)) by lia. reflexivity.
Qed.

Lemma heap_validate_ext h h' :
  mem_ok h -> mem_ok h' -> (heap_property h' <-> heap_property h) ->
  heap_validate (Some h') = heap_validate (Some h).
Proof.
  intros Hok Hok' Hiff.
  destruct (heap_validate_ok h Hok) as (b & Hrun & Hb).
  destruct (heap_validate_ok h' Hok') as (b' & Hrun' & Hb').
  rewrite Hrun, Hrun'. f_equal.
  destruct b, b'; try reflexivity.
  - apply (proj2 Hb'). apply (proj2 Hiff). apply (proj1 Hb). reflexivity.
  - symmetry. apply (proj2 Hb). apply (proj1 Hiff). apply (proj1 Hb'). reflexivity.
Qed.

(** X15: when its allocations succeed, [heap_clone] of a well-formed
    heap returns a well-formed heap with the same size, comparator and
    elements in the same array order, on which the heap property and
    [heap_validate] agree with the original; its capacity is the
    original one, or 16 when that is 0.  When an allocation fails it
    returns NULL. *)
Theorem heap_clone_copies (al : allocator) (h : Heap) :
  wf h ->
  (calloc_ok al = true ->
   grant al (created_capacity (capacity h) * sizeof_ptr) = true ->
   exists c,
     heap_clone al (Some h) = Ret (Some c) /\
     wf c /\ size c = size h /\ cmp c = cmp h /\
     capacity c = created_capacity (capacity h) /\
     elements c = elements h /\
     (heap_property c <-> heap_property h) /\
     heap_validate (Some c) = heap_validate (Some h)) /\
  (calloc_ok al = false \/
   grant al (created_capacity (capacity h) * sizeof_ptr) = false ->
   heap_clone al (Some h) = Ret None).
Proof.
  intros [Hok Hcap]. pose proof (mem_ok_len h Hok) as Hlen. pose proof Hok as [Hsz Hobj].
  set (k := created_capacity (capacity h)).
  assert (Hk : capacity h <= k /\ 0 < k /\ k * sizeof_ptr <= PTRDIFF_MAX).
  { unfold k, created_capacity, HEAP_DEFAULT_CAP, sizeof_ptr, PTRDIFF_MAX in *.
    destruct (Z.eqb_spec (capacity h) 0); lia. }
  destruct Hk as (Hk1 & Hk2 & Hk3).
  split.
  - intros Hcal Hgr.
    destruct (heap_create_granted al (cmp h) (capacity h)) as [Hcr _]; try assumption; [lia |].
    fold k in Hcr. unfold heap_clone. rewrite Hcr. cbn [data].
    rewrite size_t_small by (unfold sizeof_ptr; lia).
    rewrite memcpy_prefix by (rewrite ?len_fresh; lia). cbn [bind].
    set (d := take (Z.to_nat (size h)) (data h) ++ drop (Z.to_nat (size h)) (fresh al 0 (Z.to_nat k))).
    assert (Hld : len d = k).
    { unfold d, len. rewrite length_app, length_take, length_drop.
      pose proof (len_fresh al 0 (Z.to_nat k)) as Hf. unfold len in *. lia. }
    assert (Ht : take (Z.to_nat (size h)) d = take (Z.to_nat (size h)) (data h)).
    { unfold d. rewrite take_app_le by (rewrite length_take; unfold len in *; lia).
      rewrite take_take. f_equal. lia. }
    exists (set_size (set_data (mkHeap (fresh al 0 (Z.to_nat k)) 0 k (cmp h)) d) (size h)).
    cbn [size capacity cmp data set_data set_size].
    set (c := mkHeap d (size h) k (cmp h)).
    assert (Hokc : mem_ok c).
    { unfold mem_ok, c. cbn [size data]. rewrite Hld. lia. }
    assert (Hiff : heap_property c <-> heap_property h).
    { unfold heap_property, c. cbn [size cmp data]. split; intros Ho.
      - apply heap_ordered_ext with d; [lia | | exact Ho].
        intros j Hj. symmetry. apply (get_of_take _ _ (Z.to_nat (size h))); [exact Ht | lia].
      - apply heap_ordered_ext with (data h); [lia | | exact Ho].
        intros j Hj. apply (get_of_take _ _ (Z.to_nat (size h))); [exact Ht | lia]. }
    split; [reflexivity |].
    split; [split; [exact Hokc | symmetry; exact Hld] |].
    split; [reflexivity |]. split; [reflexivity |]. split; [reflexivity |].
    split; [exact Ht |]. split; [exact Hiff |].
    apply heap_validate_ext; assumption.
  - intros Hfail. unfold heap_clone.
    replace (heap_create al (Some (cmp h)) (capacity h)) with (@None Heap); [reflexivity |].
    symmetry. unfold heap_create. fold (created_capacity (capacity h)). fold k.
    destruct Hfail as [Hcal | Hgr].
    + rewrite Hcal. reflexivity.
    + destruct (calloc_ok al); [| reflexivity].
      rewrite size_t_small by (unfold sizeof_ptr, PTRDIFF_MAX in *; lia).
      unfold malloc, granted. fold k in Hgr. rewrite Hgr. reflexivity.
Qed.

Lemma heap_clone_copies_witness :
  (calloc_ok always = true ->
   grant always (created_capacity (capacity demo_heap) * sizeof_ptr) = true ->
   exists c,
     heap_clone always (Some demo_heap) = Ret (Some c) /\
     wf c /\ size c = size demo_heap /\ cmp c = cmp demo_heap /\
     capacity c = created_capacity (capacity demo_heap) /\
     elements c = elements demo_heap /\
     (heap_property c <-> heap_property demo_heap) /\
     heap_validate (Some c) = heap_validate (Some demo_heap)) /\
  (calloc_ok always = false \/
   grant always (created_capacity (capacity demo_heap) * sizeof_ptr) = false ->
   heap_clone always (Some demo_heap) = Ret None).
Proof.
  apply (heap_clone_copies always demo_heap). apply demo_heap_wf.
Defined.

(** X16: on a well-formed heap of positive capacity, [heap_clear]
    keeps the buffer and the capacity; the cleared heap is empty and
    valid, and the next [heap_insert] succeeds without any allocation
    and leaves exactly the item. *)
Theorem heap_clear_then_insert (al : allocator) (h : Heap) (item : ptr) :
  wf h -> 0 < capacity h ->
  exists h0 h',
    heap_clear (Some h) = Some h0 /\
    size h0 = 0 /\ capacity h0 = capacity h /\ data h0 = data h /\
    heap_peek (Some h0) = Ret NULL /\
    heap_validate (Some h0) = Ret true /\
    heap_insert al (Some h0) item = Ret (0, Some h') /\
    elements h' = [item] /\ size h' = 1 /\ capacity h' = capacity h.
Proof.
  intros [Hok Hcap] Hpos. pose proof Hok as [Hsz Hobj].
  set (h0 := set_size h 0).
  assert (Hwf0 : wf h0).
  { unfold wf, mem_ok, h0. cbn [size capacity data set_size]. lia. }
  destruct (heap_insert_room al h0 item Hwf0) as (h' & Hrun & _ & Hc' & Hs' & _ & Hp' & _);
    [unfold h0; cbn [size capacity set_size]; lia |].
  exists h0, h'.
  split; [reflexivity |]. split; [reflexivity |]. split; [reflexivity |].
  split; [reflexivity |]. split; [reflexivity |].
  split.
  { apply heap_validate_true; [apply Hwf0 |]. intros j Hj. unfold h0 in Hj. simpl in Hj. lia. }
  split; [exact Hrun |].
  split.
  { unfold elements at 2 in Hp'. unfold h0 in Hp'. cbn [size data set_size] in Hp'.
    simpl in Hp'. apply Permutation_singleton_r in Hp'. exact Hp'. }
  split; [exact Hs' | exact Hc'].
Qed.

Lemma heap_clear_then_insert_witness :
  exists h0 h',
    heap_clear (Some demo_heap) = Some h0 /\
    size h0 = 0 /\ capacity h0 = capacity demo_heap /\ data h0 = data demo_heap /\
    heap_peek (Some h0) = Ret NULL /\
    heap_validate (Some h0) = Ret true /\
    heap_insert never (Some h0) 4100 = Ret (0, Some h') /\
    elements h' = [4100] /\ size h' = 1 /\ capacity h' = capacity demo_heap.
Proof.
  apply (heap_clear_then_insert never demo_heap 4100).
  - apply demo_heap_wf.
  - simpl. lia.
Defined.

(** ** Iteration *)

Lemma len_elements h : mem_ok h -> len (elements h) = size h.
Proof. intros [Hsz _]. unfold elements. apply len_take. exact Hsz. Qed.

Lemma heap_iter_next_item h i x0 :
  mem_ok h -> 0 <= i < size h ->
  heap_iter_next (Some (mkIter (Some h) i)) (Some x0)
    = Ret (true, Some (mkIter (Some h) (i + 1)), Some (get (data h) i)).
Proof.
  intros Hok Hi. pose proof (mem_ok_len h Hok) as Hlen. destruct Hok as [Hsz _].
  unfold heap_iter_next. cbn [heap index].
  rewrite (proj2 (Z.leb_gt _ _)) by lia.
  rewrite load_ok by lia. cbn [bind].
  rewrite size_t_small by lia. reflexivity.
Qed.

Lemma heap_iter_next_done h i out :
  size h <= i ->
  heap_iter_next (Some (mkIter (Some h) i)) out = Ret (false, Some (mkIter (Some h) i), out).
Proof.
  intros Hi. unfold heap_iter_next. cbn [heap index].
  rewrite (proj2 (Z.leb_le _ _)) by lia. reflexivity.
Qed.

Lemma iter_collect_from fuel : forall h i x0,
  mem_ok h -> 0 <= i <= size h -> size h - i < Z.of_nat fuel ->
  iter_collect fuel (Some (mkIter (Some h) i)) (Some x0)
    = Ret (drop (Z.to_nat i) (elements h)).
Proof.
  induction fuel as [| fuel IH]; intros h i x0 Hok Hi Hfuel; [lia |].
  pose proof (len_elements h Hok) as Hle. pose proof Hok as [Hsz _].
  cbn [iter_collect].
  destruct (Z_lt_le_dec i (size h)) as [Hlt | Hge].
  - rewrite heap_iter_next_item by (try assumption; lia). cbn [bind].
    rewrite IH by (try assumption; lia). cbn [bind].
    f_equal. symmetry.
    replace (Z.to_nat (i + 1)) with (S (Z.to_nat i)) by lia.
    apply drop_S. unfold elements. rewrite lookup_take_lt by lia.
    apply lookup_get. lia.
  - rewrite heap_iter_next_done by lia. cbn [bind].
    rewrite drop_ge by (unfold len in Hle; lia). reflexivity.
Qed.

(** X17: iterating with [heap_iter] and [heap_iter_next] over a
    heap that is not modified yields exactly the live elements in
    array order: the call at index [i < size] returns true with
    [data[i]] and advances, the call at [size] or beyond returns false
    and changes neither the iterator nor [*out]. *)
Theorem heap_iter_visits_elements (h : Heap) (x0 : ptr) :
  mem_ok h ->
  iter_collect (S (Z.to_nat (size h))) (Some (heap_iter (Some h))) (Some x0)
    = Ret (elements h) /\
  (forall i, 0 <= i < size h ->
     heap_iter_next (Some (mkIter (Some h) i)) (Some x0)
       = Ret (true, Some (mkIter (Some h) (i + 1)), Some (get (data h) i))) /\
  (forall i out, size h <= i ->
     heap_iter_next (Some (mkIter (Some h) i)) out
       = Ret (false, Some (mkIter (Some h) i), out)).
Proof.
  intros Hok. pose proof Hok as [Hsz _]. split; [| split].
  - unfold heap_iter. rewrite iter_collect_from by (try assumption; lia). reflexivity.
  - intros i Hi. apply heap_iter_next_item; assumption.
  - intros i out Hi. apply heap_iter_next_done. exact Hi.
Qed.

Lemma heap_iter_visits_elements_witness :
  iter_collect (S (Z.to_nat (size demo_heap))) (Some (heap_iter (Some demo_heap))) (Some NULL)
    = Ret (elements demo_heap) /\
  (forall i, 0 <= i < size demo_heap ->
     heap_iter_next (Some (mkIter (Some demo_heap) i)) (Some NULL)
       = Ret (true, Some (mkIter (Some demo_heap) (i + 1)), Some (get (data demo_heap) i))) /\
  (forall i out, size demo_heap <= i ->
     heap_iter_next (Some (mkIter (Some demo_heap) i)) out
       = Ret (false, Some (mkIter (Some demo_heap) i), out)).
Proof.
  apply (heap_iter_visits_elements demo_heap NULL). apply demo_heap_wf.
Defined.

(** ** sort on a prefix, build on a heap, insert then extract *)

(** X18: [heap_sort(arr, n, cmp)] on an array longer than [n] sorts
    the first [n] slots (a permutation of them, ascending for a
    comparator that honours its contract) and leaves the slots from
    [n] on as they were. *)
Theorem heap_sort_prefix (al : allocator) (arr : list ptr) (n : Z) (c : heap_cmp_fn) :
  0 <= n <= len arr -> calloc_ok al = true -> granted al (n * sizeof_ptr) = true ->
  exists out,
    heap_sort al arr n (Some c) = Ret (out ++ drop (Z.to_nat n) arr) /\
    Permutation out (take (Z.to_nat n) arr) /\
    (cmp_contract c -> StronglySorted (fun a b => c a b <= 0) out).
Proof.
  intros Hn Hcal Hgr.
  destruct (heap_build_ok al arr n c Hn Hcal Hgr)
    as (h & Hrun & [Hok Hcap] & Hs & Hcapn & Hcmp & Hperm & _ & Hord).
  unfold heap_sort. rewrite Hrun. cbn [bind].
  destruct (sort_loop_ok (S (Z.to_nat n)) h arr Hok) as (l & h' & Hdrain & Hsort); [lia | lia |].
  destruct (drain_loop_ok (S (Z.to_nat n)) h Hok) as (l' & h'' & Hdrain' & _ & Hpl & Hsorted);
    [lia |].
  rewrite Hdrain in Hdrain'. injection Hdrain' as <- <-.
  rewrite Hs in Hsort. rewrite Hsort. cbn [bind heap_destroy].
  exists (rev l). split; [reflexivity |]. split.
  - rewrite <- Permutation_rev, Hpl. unfold elements.
    rewrite take_ge by (unfold len in *; lia). exact Hperm.
  - intros Hc. apply strongly_sorted_rev. rewrite <- Hcmp.
    apply Hsorted; [rewrite Hcmp; exact Hc | apply Hord; exact Hc].
Qed.

Lemma heap_sort_prefix_witness :
  exists out,
    heap_sort always demo_arr 4 (Some demo_cmp) = Ret (out ++ drop (Z.to_nat 4) demo_arr) /\
    Permutation out (take (Z.to_nat 4) demo_arr) /\
    (cmp_contract demo_cmp -> StronglySorted (fun a b => demo_cmp a b <= 0) out).
Proof.
  apply (heap_sort_prefix always demo_arr 4 demo_cmp).
  - unfold len. simpl. lia.
  - reflexivity.
  - reflexivity.
Defined.

Lemma sift_down_ordered h i :
  mem_ok h -> heap_property h -> 0 <= i < size h -> sift_down h i = Ret h.
Proof.
  intros Hok Ho Hi. pose proof (mem_ok_len h Hok) as Hlen. pose proof Hok as [Hsz _].
  unfold sift_down. cbn [sift_down_loop].
  rewrite left_eq, right_eq by lia.
  assert (Hl : choose (cmp h) (data h) (size h) (2 * i + 1) i = i).
  { unfold choose. destruct (Z.ltb_spec (2 * i + 1) (size h)) as [Hlt | _]; [| reflexivity].
    pose proof (Ho (2 * i + 1)) as Hedge. unfold ordered_edge in Hedge.
    rewrite parent_eq in Hedge by lia.
    replace ((2 * i + 1 - 1) / 2) with i in Hedge by lia.
    rewrite Z.gtb_ltb.
    destruct (Z.ltb_spec 0 (cmp h (get (data h) (2 * i + 1)) (get (data h) i))); [lia | reflexivity]. }
  assert (Hr : choose (cmp h) (data h) (size h) (2 * i + 2) i = i).
  { unfold choose. destruct (Z.ltb_spec (2 * i + 2) (size h)) as [Hlt | _]; [| reflexivity].
    pose proof (Ho (2 * i + 2)) as Hedge. unfold ordered_edge in Hedge.
    rewrite parent_eq in Hedge by lia.
    replace ((2 * i + 2 - 1) / 2) with i in Hedge by lia.
    rewrite Z.gtb_ltb.
    destruct (Z.ltb_spec 0 (cmp h (get (data h) (2 * i + 2)) (get (data h) i))); [lia | reflexivity]. }
  rewrite pick_ok by lia. cbn [bind]. rewrite Hl.
  rewrite pick_ok by lia. cbn [bind]. rewrite Hr.
  rewrite Z.eqb_refl. reflexivity.
Qed.

Lemma build_loop_ordered fuel : forall h i,
  mem_ok h -> heap_property h -> -1 <= i < size h -> i + 1 < Z.of_nat fuel ->
  build_loop fuel h i = Ret h.
Proof.
  induction fuel as [| fuel IH]; intros h i Hok Ho Hi Hfuel; [lia |].
  pose proof (mem_ok_len h Hok) as Hlen. pose proof Hok as [Hsz _].
  cbn [build_loop]. destruct (Z.leb_spec 0 i) as [Hpos | Hneg]; [| reflexivity].
  rewrite size_t_small by lia.
  rewrite sift_down_ordered by (try assumption; lia). cbn [bind].
  apply IH; try assumption; lia.
Qed.

(** X19: [heap_build] on an array that already satisfies the heap
    property returns a heap with the array in the same order: no
    element is moved. *)
Theorem heap_build_keeps_a_heap (al : allocator) (arr : list ptr) (n : Z) (c : heap_cmp_fn) :
  n = len arr -> heap_ordered c arr n ->
  calloc_ok al = true -> granted al (n * sizeof_ptr) = true ->
  heap_build al arr n (Some c) = Ret (Some (mkHeap arr n n c)).
Proof.
  intros Hn Ho Hcal Hgr.
  assert (Hmax : n * sizeof_ptr <= PTRDIFF_MAX).
  { unfold granted in Hgr. apply andb_prop in Hgr as [_ Hgr]. lia. }
  assert (Hn0 : 0 <= n) by (unfold len in Hn; lia).
  unfold heap_build. rewrite Hcal.
  rewrite (size_t_small (n * sizeof_ptr)) by (unfold sizeof_ptr, PTRDIFF_MAX in *; lia).
  rewrite (malloc_granted _ _ Hgr).
  rewrite memcpy_exact by (rewrite ?len_fresh; unfold sizeof_ptr; lia).
  cbn [bind]. rewrite take_ge by (unfold len in Hn; lia).
  rewrite build_loop_ordered; [reflexivity | | exact Ho | simpl; lia | lia].
  unfold mem_ok. simpl. lia.
Qed.

Lemma heap_build_keeps_a_heap_witness :
  heap_build always (data demo_heap) 7 (Some demo_cmp)
    = Ret (Some (mkHeap (data demo_heap) 7 7 demo_cmp)).
Proof.
  apply (heap_build_keeps_a_heap always (data demo_heap) 7 demo_cmp).
  - reflexivity.
  - exact demo_heap_property.
  - reflexivity.
  - reflexivity.
Defined.

(** X20: if the item outranks every element of a heap and
    [heap_insert] returns 0, the next [heap_extract] returns that
    item and leaves the elements the heap had before, in a heap that
    satisfies the heap property. *)
Theorem insert_then_extract_top (al : allocator) (h h1 : Heap) (item : ptr) :
  cmp_contract (cmp h) -> mem_ok h -> heap_property h ->
  (forall y, y ∈ elements h -> cmp h item y > 0) ->
  heap_insert al (Some h) item = Ret (0, Some h1) ->
  exists h2,
    heap_extract (Some h1) = Ret (item, Some h2) /\
    Permutation (elements h2) (elements h) /\
    size h2 = size h /\ heap_property h2.
Proof.
  intros Hc Hok Ho Htop Hrun.
  destruct (heap_insert_returns al h item 0 (Some h1) Hok Hrun)
    as [[Hrc _] | (_ & h1' & [= <-] & Hok1 & Hs1 & Hcmp1 & Hp1 & Ho1)]; [discriminate |].
  pose proof Hok as [Hsz _].
  assert (Hc1 : cmp_contract (cmp h1)) by (rewrite Hcmp1; exact Hc).
  assert (Hprop1 : heap_property h1) by (apply Ho1; assumption).
  destruct (heap_extract_ok h1 Hok1) as (h2 & Hrun2 & Hs2 & _ & Hcmp2 & _ & Hp2 & Ho2); [lia |].
  assert (Hroot : get (data h1) 0 = item).
  { assert (Hin : get (data h1) 0 ∈ item :: elements h).
    { rewrite <- Hp1. apply root_in_elements; [exact Hok1 | lia]. }
    apply elem_of_cons in Hin as [Heq | Hin]; [exact Heq |].
    pose proof (Htop _ Hin) as Hgt.
    assert (Hle : cmp h1 item (get (data h1) 0) <= 0).
    { apply elements_le_root; try assumption. rewrite Hp1. left. }
    rewrite Hcmp1 in Hle. lia. }
  rewrite Hroot in Hrun2, Hp2.
  exists h2. split; [exact Hrun2 |].
  split.
  { apply (Permutation_cons_inv (a := item)). rewrite Hp2, Hp1. reflexivity. }
  split; [lia |]. apply Ho2; assumption.
Qed.

Lemma insert_then_extract_top_witness :
  exists h2,
    heap_extract (Some (mkHeap [4104; 4100; 4096; 0] 3 4 demo_cmp)) = Ret (4104, Some h2) /\
    Permutation (elements h2) (elements (mkHeap [4096; 4100; 0; 0] 2 4 demo_cmp)) /\
    size h2 = size (mkHeap [4096; 4100; 0; 0] 2 4 demo_cmp) /\ heap_property h2.
Proof.
  apply (insert_then_extract_top always (mkHeap [4096; 4100; 0; 0] 2 4 demo_cmp) _ 4104).
  - apply int_cmp_contract.
  - unfold mem_ok, len, sizeof_ptr, PTRDIFF_MAX. simpl. lia.
  - apply heap_validate_sound; [| vm_compute; reflexivity].
    unfold mem_ok, len, sizeof_ptr, PTRDIFF_MAX. simpl. lia.
  - intros y Hy. unfold elements in Hy. simpl in Hy.
    apply elem_of_cons in Hy as [-> | Hy]; [vm_compute; reflexivity |].
    apply elem_of_cons in Hy as [-> | Hy]; [vm_compute; reflexivity |].
    apply elem_of_nil in Hy. destruct Hy.
  - reflexivity.
Defined.

(** X21: whatever the comparator, also one that breaks its
    contract, [heap_extract], [heap_replace] and extracting until
    empty stay inside the buffer and neither lose nor duplicate an
    element. *)
Theorem any_comparator_keeps_elements (h : Heap) (item : ptr) :
  mem_ok h -> 0 < size h ->
  (exists r h',
     heap_extract (Some h) = Ret (r, Some h') /\
     Permutation (r :: elements h') (elements h) /\ mem_ok h') /\
  (exists r h',
     heap_replace (Some h) item = Ret (r, Some h') /\
     Permutation (r :: elements h') (item :: elements h) /\ mem_ok h') /\
  (exists l h',
     drain (Some h) = Ret (l, Some h') /\
     Permutation l (elements h) /\ size h' = 0).
Proof.
  intros Hok Hpos. pose proof Hok as [Hsz Hobj]. split; [| split].
  - destruct (heap_extract_ok h Hok Hpos) as (h' & Hrun & Hs & _ & _ & Hl & Hp & _).
    exists (get (data h) 0), h'. split; [exact Hrun |]. split; [exact Hp |].
    split; [lia | rewrite Hl; exact Hobj].
  - destruct (heap_replace_ok h item Hok Hpos) as (h' & Hrun & Hs & _ & _ & Hl & Hp & _).
    exists (get (data h) 0), h'. split; [exact Hrun |]. split; [exact Hp |].
    split; [lia | rewrite Hl; exact Hobj].
  - destruct (drain_loop_ok (S (Z.to_nat (size h))) h Hok) as (l & h' & Hrun & Hs & Hp & _);
      [lia |].
    exists l, h'. split; [exact Hrun |]. split; [exact Hp | exact Hs].
Qed.

Lemma any_comparator_keeps_elements_witness :
  (exists r h',
     heap_extract (Some (mkHeap [4096; 4104; 4100] 3 3 (fun _ _ => 1))) = Ret (r, Some h') /\
     Permutation (r :: elements h')
       (elements (mkHeap [4096; 4104; 4100] 3 3 (fun _ _ => 1))) /\ mem_ok h') /\
  (exists r h',
     heap_replace (Some (mkHeap [4096; 4104; 4100] 3 3 (fun _ _ => 1))) 4108
       = Ret (r, Some h') /\
     Permutation (r :: elements h')
       (4108 :: elements (mkHeap [4096; 4104; 4100] 3 3 (fun _ _ => 1))) /\ mem_ok h') /\
  (exists l h',
     drain (Some (mkHeap [4096; 4104; 4100] 3 3 (fun _ _ => 1))) = Ret (l, Some h') /\
     Permutation l (elements (mkHeap [4096; 4104; 4100] 3 3 (fun _ _ => 1))) /\
     size h' = 0).
Proof.
  apply (any_comparator_keeps_elements (mkHeap [4096; 4104; 4100] 3 3 (fun _ _ => 1)) 4108).
  - unfold mem_ok, len, sizeof_ptr, PTRDIFF_MAX. simpl. lia.
  - simpl. lia.
Defined.

(** ** insert on a full heap of positive capacity *)

Lemma heap_insert_full_unfold al h item :
  mem_ok h -> size h = capacity h -> 0 < capacity h ->
  heap_insert al (Some h) item =
    match realloc al (data h) (capacity h * 2 * sizeof_ptr) with
    | None => Ret (-1, Some h)
    | Some tmp => place (set_capacity (set_data h tmp) (capacity h * 2)) item
    end.
Proof.
  intros Hok Hfull Hpos. rewrite heap_insert_unfold.
  rewrite (proj2 (Z.eqb_eq _ _) Hfull).
  rewrite (heap_reserve_double al h Hok Hfull).
  rewrite (proj2 (Z.eqb_neq _ _)) by lia.
  destruct (realloc al (data h) (capacity h * 2 * sizeof_ptr)); reflexivity.
Qed.

(** X22: on a well-formed full heap of positive capacity, if the
    reallocation to twice the capacity is refused, [heap_insert]
    returns -1 and the heap is exactly as it was: size, contents and
    capacity. *)
Theorem heap_insert_growth_refused (al : allocator) (h : Heap) (item : ptr) :
  wf h -> size h = capacity h -> 0 < capacity h ->
  granted al (capacity h * 2 * sizeof_ptr) = false ->
  heap_insert al (Some h) item = Ret (-1, Some h).
Proof.
  intros [Hok Hcap] Hfull Hpos Hgr.
  rewrite (heap_insert_full_unfold al h item Hok Hfull Hpos).
  rewrite (realloc_None _ _ _ Hgr). reflexivity.
Qed.

Lemma heap_insert_growth_refused_witness :
  heap_insert never (Some small_heap) 4100 = Ret (-1, Some small_heap).
Proof.
  apply (heap_insert_growth_refused never small_heap 4100).
  - apply small_heap_wf.
  - reflexivity.
  - simpl. lia.
  - reflexivity.
Defined.

(** X23: on a well-formed full heap of positive capacity, if the
    reallocation to twice the capacity is granted, [heap_insert]
    returns 0 on a well-formed heap whose capacity is twice the old
    one, whose size is one more, which holds the old elements and the
    item, and which keeps the heap property. *)
Theorem heap_insert_growth_granted (al : allocator) (h : Heap) (item : ptr) :
  wf h -> size h = capacity h -> 0 < capacity h ->
  granted al (capacity h * 2 * sizeof_ptr) = true ->
  exists h',
    heap_insert al (Some h) item = Ret (0, Some h') /\
    wf h' /\ capacity h' = 2 * capacity h /\ size h' = size h + 1 /\
    cmp h' = cmp h /\
    Permutation (elements h') (item :: elements h) /\
    (cmp_contract (cmp h) -> heap_property h -> heap_property h').
Proof.
  intros [Hok Hcap] Hfull Hpos Hgr.
  rewrite (heap_insert_full_unfold al h item Hok Hfull Hpos).
  destruct (realloc al (data h) (capacity h * 2 * sizeof_ptr)) as [tmp |] eqn:Hre;
    [| unfold realloc in Hre; rewrite Hgr in Hre; discriminate].
  destruct (grown_ok al h tmp Hok Hfull Hre) as ([Hok1 Hcap1] & Hel & Ho1).
  set (h1 := set_capacity (set_data h tmp) (capacity h * 2)) in *.
  destruct (place_inserted h1 item Hok1) as (h' & Hrun & Hrel & Hc' & Hl');
    [simpl in *; lia |].
  destruct Hrel as (Hok' & Hs' & Hcmp' & Hp' & Ho').
  exists h'. simpl in Hc', Hs', Hcap1, Hl', Hcmp'.
  split; [exact Hrun |].
  split; [split; [exact Hok' | lia] |].
  split; [lia |]. split; [lia |]. split; [exact Hcmp' |].
  split; [rewrite Hp', Hel; reflexivity |].
  intros Hc Ho. apply Ho'; [exact Hc | apply Ho1; exact Ho].
Qed.

Lemma heap_insert_growth_granted_witness :
  exists h',
    heap_insert always (Some small_heap) 4100 = Ret (0, Some h') /\
    wf h' /\ capacity h' = 2 * capacity small_heap /\ size h' = size small_heap + 1 /\
    cmp h' = cmp small_heap /\
    Permutation (elements h') (4100 :: elements small_heap) /\
    (cmp_contract (cmp small_heap) -> heap_property small_heap -> heap_property h').
Proof.
  apply (heap_insert_growth_granted always small_heap 4100).
  - apply small_heap_wf.
  - reflexivity.
  - simpl. lia.
  - reflexivity.
Defined.
